(** * django-autotranslate: the [translate_messages] management command

    A shallow embedding of
    [autotranslate/management/commands/translate_messages.py]:
    the placeholder protection ([humanize_placeholders],
    [restore_placeholders], [fix_translation]), the two passes over a
    catalog ([get_strings_to_translate], [update_translations]) and the
    search for catalogs ([find_po_files], [handle]).

    Text is a list of Unicode code points, as a Python 3 [str] is.  The
    module's three regular expressions are kept as syntax trees and run
    by a small backtracking matcher that follows the search order of
    Python's [re].  The class [\s] is the white space of [str] patterns,
    written out.  The class [\w] and [str.lower] are written out on
    ASCII; beyond it they rest on the Unicode character database, which
    is a parameter of the development (class [Unicode]). *)

From Stdlib Require Import Ascii String NArith.
From stdpp Require Import gmap list.

Local Open Scope char_scope.

(** A string is its code points. *)
Abbreviation str := (list N).

(** [ord(c)] for the characters the development names. *)
Definition ord (c : ascii) : N := N_of_ascii c.

Arguments ord : simpl never.

(** A string literal of the source. *)
Definition lit (s : string) : str := ord <$> list_ascii_of_string s.

(** ** Character classes *)

Definition in_range (lo hi c : N) : bool := (lo <=? c)%N && (c <=? hi)%N.

(** [\s] in a [str] pattern: [str.isspace] on one character.  Below 128
    these are tab to carriage return, the four separators [\x1c] to
    [\x1f] and the space; above, the white space of the Unicode
    character database, which is the code points listed. *)
Definition is_space (c : N) : bool :=
  in_range 0x09 0x0D c || in_range 0x1C 0x20 c
  || N.eqb c 0x85 || N.eqb c 0xA0 || N.eqb c 0x1680
  || in_range 0x2000 0x200A c
  || N.eqb c 0x2028 || N.eqb c 0x2029 || N.eqb c 0x202F
  || N.eqb c 0x205F || N.eqb c 0x3000.

(** [[sd]] *)
Definition is_sd (c : N) : bool := N.eqb c (ord "s") || N.eqb c (ord "d").

(** The ASCII letters and digits, and [str.lower] on an ASCII
    character. *)
Definition ascii_alnum (c : N) : bool :=
  in_range 48 57 c || in_range 65 90 c || in_range 97 122 c.

Definition ascii_lower (c : N) : N :=
  if in_range 65 90 c then (c + 32)%N else c.

Definition is_ascii (c : N) : bool := (c <? 128)%N.

(** What the module takes from the Unicode character database beyond
    ASCII: [str.isalnum] on a character that is not ASCII, and
    [str.lower] on a string that is not all ASCII.  [lower_beyond] works
    on the whole string, since [str.lower] may change the length
    ([U+0130] becomes two characters) and looks at what surrounds a
    capital sigma.  The development holds for every such pair. *)
Class Unicode := {
  isalnum_beyond : N -> bool;
  lower_beyond : str -> str
}.

(** [str.isalnum] on one character: a [str] pattern's [\w] matches these
    characters and the underscore. *)
Definition is_alnum {U : Unicode} (c : N) : bool :=
  if is_ascii c then ascii_alnum c else isalnum_beyond c.

(** [str.lower] *)
Definition lower {U : Unicode} (s : str) : str :=
  if forallb is_ascii s then ascii_lower <$> s else lower_beyond s.

(** [\w] *)
Definition is_word {U : Unicode} (c : N) : bool :=
  is_alnum c || N.eqb c (ord "_").

(** Tables that know nothing beyond ASCII, for the examples, which are
    ASCII text. *)
Definition ascii_tables : Unicode :=
  {| isalnum_beyond := λ _, false; lower_beyond := λ s, s |}.

(** ** Regular expressions

    The fragment of [re] syntax the module uses.  Repetition is only ever
    applied to a character class, so the three repetition forms carry the
    class itself.  Groups carry their number. *)

Module Re.

Inductive regex : Type :=
| Chr (c : N)                  (* a literal character *)
| Cls (p : N -> bool)          (* a character class *)
| Cat (r1 r2 : regex)              (* r1 r2 *)
| Opt (r : regex)                  (* (?:r)?  greedy *)
| Star (p : N -> bool)         (* p*      greedy *)
| Plus (p : N -> bool)         (* p+      greedy *)
| PlusLazy (p : N -> bool)     (* p+?     lazy *)
| Group (i : nat) (r : regex).     (* (r), the i-th group *)

(** Group [i] is at index [i]; [None] is a group that took no part. *)
Definition groups := list (option str).

Definition set_group (i : nat) (v : str) (g : groups) : groups :=
  <[i := Some v]> g.

(** Greedy [p*]: the ways to go on, longest first. *)
Fixpoint star (p : N -> bool) (s : str) : list str :=
  match s with
  | c :: s' => if p c then star p s' ++ [s] else [s]
  | [] => [s]
  end.

(** Lazy [p*?]: the ways to go on, shortest first. *)
Fixpoint star_lazy (p : N -> bool) (s : str) : list str :=
  match s with
  | c :: s' => if p c then s :: star_lazy p s' else [s]
  | [] => [s]
  end.

(** One character of class [p], then [rep] on what follows. *)
Definition one_then (p : N -> bool) (rep : str -> list str) (s : str)
  : list str :=
  match s with
  | c :: s' => if p c then rep s' else []
  | [] => []
  end.

(** [run r s g]: every way [r] matches a prefix of [s], in the order a
    backtracking matcher tries them, as the text left over and the groups
    set so far.  The head of the list is the match [re] reports. *)
Fixpoint run (r : regex) (s : str) (g : groups) : list (str * groups) :=
  match r with
  | Chr c => (λ s', (s', g)) <$> one_then (N.eqb c) (λ s', [s']) s
  | Cls p => (λ s', (s', g)) <$> one_then p (λ s', [s']) s
  | Cat r1 r2 => '(s1, g1) ← run r1 s g; run r2 s1 g1
  | Opt r => run r s g ++ [(s, g)]
  | Star p => (λ s', (s', g)) <$> star p s
  | Plus p => (λ s', (s', g)) <$> one_then p (star p) s
  | PlusLazy p => (λ s', (s', g)) <$> one_then p (star_lazy p) s
  | Group i r =>
      (λ '(s1, g1), (s1, set_group i (take (length s - length s1) s) g1))
        <$> run r s g
  end.

(** A match object: the text matched and the groups. *)
Record match_obj := MatchObj { m_text : str; m_groups : groups }.

(** [match.group(i)] *)
Definition group (m : match_obj) (i : nat) : option str :=
  default None (m_groups m !! i).

(** [pattern.match(s)] with [n] groups: the match at the start of [s], and
    the text after it. *)
Definition match_at (n : nat) (r : regex) (s : str)
  : option (match_obj * str) :=
  match run r s (replicate (S n) None) with
  | (rest, g) :: _ => Some (MatchObj (take (length s - length rest) s) g, rest)
  | [] => None
  end.

(** What a scan of the subject yields: the matches, left to right and not
    overlapping, and the characters between them. *)
Inductive item := Copy (c : N) | Hit (m : match_obj).

(** [pattern.finditer(s)], keeping the text between the matches.  The
    scan is at the head of [s]; [skip] counts the characters of [s] that
    the last match still covers.  After an empty match the scan moves on
    by one character, as [re] does. *)
Fixpoint scan (n : nat) (r : regex) (s : str) (skip : nat) : list item :=
  match skip, s with
  | S k, _ :: s' => scan n r s' k
  | S k, [] => []
  | 0, _ =>
      match match_at n r s, s with
      | Some (m, rest), c :: s' =>
          match length (m_text m) with
          | 0 => Hit m :: Copy c :: scan n r s' 0
          | S k => Hit m :: scan n r s' k
          end
      | Some (m, rest), [] => [Hit m]
      | None, c :: s' => Copy c :: scan n r s' 0
      | None, [] => []
      end
  end.

(** [re.sub(pattern, repl, s)] with a function [repl]. *)
Definition sub (n : nat) (r : regex) (repl : match_obj -> str) (s : str)
  : str :=
  item ← scan n r s 0;
  match item with Copy c => [c] | Hit m => repl m end.

(** [re.findall(pattern, s)] for a pattern with three groups: the triples
    of group texts ([''] for a group that took no part). *)
Definition findall3 (r : regex) (s : str) : list (str * str * str) :=
  item ← scan 3 r s 0;
  match item with
  | Copy _ => []
  | Hit m => [(default [] (group m 1), default [] (group m 2),
               default [] (group m 3))]
  end.

End Re.

Import Re.

(** ** Exceptions *)

Inductive exn := StopIteration | IndexError.

(** ** Placeholder protection *)

Definition nl : N := ord "010".

(** The pattern of [humanize_placeholders]: a percent sign, then
    optionally a parenthesised group 1 of one or more [\w], then group 2,
    one of [s] and [d]. *)
Definition placeholder_re {U : Unicode} : regex :=
  Cat (Chr (ord "%"))
      (Cat (Opt (Cat (Chr (ord "("))
                     (Cat (Group 1 (Plus is_word)) (Chr (ord ")")))))
           (Group 2 (Cls is_sd))).

(** The pattern [restore_placeholders] runs over [msgid]: group 1, any
    number of [\s]; group 2, a placeholder as above (its name is not a
    group here); group 3, any number of [\s]. *)
Definition spaced_placeholder_re {U : Unicode} : regex :=
  Cat (Group 1 (Star is_space))
      (Cat (Group 2
              (Cat (Chr (ord "%"))
                   (Cat (Opt (Cat (Chr (ord "("))
                                  (Cat (Plus is_word) (Chr (ord ")")))))
                        (Cls is_sd))))
           (Group 3 (Star is_space))).

(** The pattern [restore_placeholders] runs over the translation:
    group 1, any number of [\s]; group 2, two underscores, one or more
    [\w] as few as possible, two underscores; group 3, any number of
    [\s]. *)
Definition token_re {U : Unicode} : regex :=
  Cat (Group 1 (Star is_space))
      (Cat (Group 2
              (Cat (Chr (ord "_")) (Cat (Chr (ord "_"))
                 (Cat (PlusLazy is_word)
                      (Cat (Chr (ord "_")) (Chr (ord "_")))))))
           (Group 3 (Star is_space))).

(** The replacement function of [humanize_placeholders]:
    [match.group(1).lower() if match.group(1) else
     'number' if match.group(2) == 'd' else 'item'], between [__] and [__]. *)
Definition humanize_match {U : Unicode} (m : match_obj) : str :=
  lit "__" ++
  match group m 1 with
  | Some (c :: name) => lower (c :: name)
  | _ => if bool_decide (group m 2 = Some (lit "d"))
         then lit "number" else lit "item"
  end ++ lit "__".

Definition humanize_placeholders {U : Unicode} (msgid : str) : str :=
  sub 2 placeholder_re humanize_match msgid.

(** The replacement function of [restore_placeholders]: it reads
    [placehoders[0]] twice and then pops it; on an empty list the first
    read raises [IndexError]. *)
Definition pop_placeholder (placehoders : list (str * str * str))
  : exn + (str * list (str * str * str)) :=
  match placehoders with
  | [] => inl IndexError
  | (ws1, ph, ws2) :: rest => inr (ws1 ++ ph ++ ws2, rest)
  end.

(** [re.sub] with that function, which is called once per match, left to
    right, and shares the list [placehoders]. *)
Fixpoint sub_pop (items : list item) (placehoders : list (str * str * str))
  : exn + str :=
  match items with
  | [] => inr []
  | Copy c :: items' =>
      match sub_pop items' placehoders with
      | inl e => inl e
      | inr out => inr (c :: out)
      end
  | Hit _ :: items' =>
      match pop_placeholder placehoders with
      | inl e => inl e
      | inr (text, rest) =>
          match sub_pop items' rest with
          | inl e => inl e
          | inr out => inr (text ++ out)
          end
      end
  end.

Definition restore_placeholders {U : Unicode} (msgid translation : str)
  : exn + str :=
  let placehoders := findall3 spaced_placeholder_re msgid in
  sub_pop (scan 3 token_re translation 0) placehoders.

(** [s.startswith('\n')], [s.endswith('\n')] *)
Definition startswith_nl (s : str) : bool :=
  match s with c :: _ => N.eqb c nl | [] => false end.

Definition endswith_nl (s : str) : bool :=
  match last s with Some c => N.eqb c nl | None => false end.

(** Lines 216-221 of [fix_translation]: the two newline repairs. *)
Definition fix_newlines (msgid translation : str) : str :=
  let translation :=
    if startswith_nl msgid && negb (startswith_nl translation)
    then nl :: translation else translation in
  let translation :=
    if endswith_nl msgid && negb (endswith_nl translation)
    then translation ++ [nl] else translation in
  translation.

Definition fix_translation {U : Unicode} (msgid translation : str)
  : exn + str :=
  restore_placeholders msgid (fix_newlines msgid translation).

(** ** Catalog entries

    The attributes of [polib.POEntry] the command reads or writes.  An
    entry without a plural has [msgid_plural = ''].  [msgstr_plural] is a
    dict from plural index to text. *)

Record POEntry := {
  msgid : str;
  msgid_plural : str;
  msgstr : str;
  msgstr_plural : gmap Z str;
  flags : list str;
  obsolete : bool
}.

(** The options [set_options] stores on the command. *)
Record Command := {
  locale : list str;
  exclude : list str;
  skip_translated : bool;
  set_fuzzy : bool
}.

(** Truth value of a Python string. *)
Definition truthy (s : str) : bool :=
  match s with [] => false | _ => true end.

Definition fuzzy : str := lit "fuzzy".

Section Translator.

Context {U : Unicode}.

(** [entry.translated()] belongs to polib; the command only calls it. *)
Variable translated : POEntry -> bool.

Definition need_translate (self : Command) (entry : POEntry) : bool :=
  negb (skip_translated self) || negb (translated entry)
  || negb (obsolete entry).

Fixpoint get_strings_to_translate (self : Command) (po : list POEntry)
  : list str :=
  match po with
  | [] => []
  | entry :: po' =>
      if negb (need_translate self entry)
      then get_strings_to_translate self po'
      else
        [humanize_placeholders (msgid entry)]
        ++ (if truthy (msgid_plural entry)
            then [humanize_placeholders (msgid_plural entry)] else [])
        ++ get_strings_to_translate self po'
  end.

(** [next(translations)] on what is left of the iterator. *)
Definition next (translations : list str) : exn + (str * list str) :=
  match translations with
  | [] => inl StopIteration
  | t :: rest => inr (t, rest)
  end.

Definition set_msgstr (v : str) (e : POEntry) : POEntry :=
  {| msgid := msgid e; msgid_plural := msgid_plural e; msgstr := v;
     msgstr_plural := msgstr_plural e; flags := flags e;
     obsolete := obsolete e |}.

Definition set_msgstr_plural (v : gmap Z str) (e : POEntry) : POEntry :=
  {| msgid := msgid e; msgid_plural := msgid_plural e; msgstr := msgstr e;
     msgstr_plural := v; flags := flags e; obsolete := obsolete e |}.

Definition set_flags (v : list str) (e : POEntry) : POEntry :=
  {| msgid := msgid e; msgid_plural := msgid_plural e; msgstr := msgstr e;
     msgstr_plural := msgstr_plural e; flags := v; obsolete := obsolete e |}.

(** Lines 129-131: every key other than 0 gets the plural translation. *)
Definition fill_plurals (translation : str) (m : gmap Z str) : gmap Z str :=
  map_imap
    (λ k v, Some (if bool_decide (k ≠ 0%Z) then translation else v)) m.

(** Lines 138-139. *)
Definition mark_fuzzy (self : Command) (entry : POEntry) : POEntry :=
  if set_fuzzy self && negb (bool_decide (fuzzy ∈ flags entry))
  then set_flags (flags entry ++ [fuzzy]) entry
  else entry.

(** The body of the loop of [update_translations] for an entry that
    needs translation (lines 120-139): the entry as it is when the body
    ends or raises, and what is left of the iterator. *)
Definition update_entry (self : Command) (entry : POEntry)
    (translations : list str) : POEntry * (exn + list str) :=
  if truthy (msgid_plural entry) then
    match next translations with
    | inl e => (entry, inl e)
    | inr (translation, translations) =>
        match fix_translation (msgid entry) translation with
        | inl e => (entry, inl e)
        | inr translation =>
            let entry :=
              set_msgstr_plural (<[0%Z := translation]> (msgstr_plural entry))
                                entry in
            match next translations with
            | inl e => (entry, inl e)
            | inr (translation, translations) =>
                match fix_translation (msgid_plural entry) translation with
                | inl e => (entry, inl e)
                | inr translation =>
                    let entry :=
                      set_msgstr_plural
                        (fill_plurals translation (msgstr_plural entry))
                        entry in
                    (mark_fuzzy self entry, inr translations)
                end
            end
        end
    end
  else
    match next translations with
    | inl e => (entry, inl e)
    | inr (translation, translations) =>
        match fix_translation (msgid entry) translation with
        | inl e => (entry, inl e)
        | inr translation =>
            (mark_fuzzy self (set_msgstr translation entry),
             inr translations)
        end
    end.

(** [update_translations]: the entries after the call, and either the
    exception that ended it or what the iterator still holds. *)
Fixpoint update_translations (self : Command) (entries : list POEntry)
    (translations : list str) : list POEntry * (exn + list str) :=
  match entries with
  | [] => ([], inr translations)
  | entry :: entries' =>
      if negb (need_translate self entry) then
        let '(done, r) := update_translations self entries' translations in
        (entry :: done, r)
      else
        match update_entry self entry translations with
        | (entry', inl e) => (entry' :: entries', inl e)
        | (entry', inr translations) =>
            let '(done, r) :=
              update_translations self entries' translations in
            (entry' :: done, r)
        end
  end.

End Translator.

(** ** The statements' vocabulary

    Descriptions of the behaviour that go through neither the matcher
    nor the tests of the character classes above, against which the code
    is compared. *)

(** White space, as the list of its code points. *)
Definition Space (c : N) : Prop :=
  c ∈ [0x09; 0x0A; 0x0B; 0x0C; 0x0D; 0x1C; 0x1D; 0x1E; 0x1F; 0x20;
       0x85; 0xA0; 0x1680;
       0x2000; 0x2001; 0x2002; 0x2003; 0x2004; 0x2005; 0x2006; 0x2007;
       0x2008; 0x2009; 0x200A;
       0x2028; 0x2029; 0x202F; 0x205F; 0x3000]%N.

(** The letters and digits of ASCII. *)
Definition capitals : str := lit "ABCDEFGHIJKLMNOPQRSTUVWXYZ".
Definition smalls : str := lit "abcdefghijklmnopqrstuvwxyz".
Definition digits : str := lit "0123456789".

(** A word character: an ASCII letter or digit, a letter or digit of the
    character database beyond ASCII, or the underscore. *)
Definition Word {U : Unicode} (c : N) : Prop :=
  c ∈ capitals ++ smalls ++ digits
  \/ ((128 <= c)%N /\ isalnum_beyond c = true)
  \/ c = ord "_".

(** [paired c from to]: the character of [to] at the place [c] has in
    [from], and [c] itself when it is not in [from]. *)
Fixpoint paired (c : N) (from to : str) : N :=
  match from, to with
  | a :: from', b :: to' => if N.eqb c a then b else paired c from' to'
  | _, _ => c
  end.

(** Lower case: in ASCII text every capital becomes its small letter;
    other text is left to the character database. *)
Definition lower_case {U : Unicode} (s : str) : str :=
  if decide (Forall (λ c, (c < 128)%N) s)
  then (λ c, paired c capitals smalls) <$> s
  else lower_beyond s.

(** A conversion letter. *)
Definition Conversion (c : N) : Prop := c = ord "s" \/ c = ord "d".

(** [Placeholder s name c rest]: [s] starts with a placeholder, either
    [%(name)c] with a name of one or more word characters or a bare
    [%c], where [c] is [s] or [d]; [rest] is the text after it. *)
Inductive Placeholder {U : Unicode} : str -> option str -> N -> str -> Prop :=
| Placeholder_named name c rest :
    name <> [] -> Forall Word name -> Conversion c ->
    Placeholder (lit "%(" ++ name ++ lit ")" ++ c :: rest) (Some name) c rest
| Placeholder_bare c rest :
    Conversion c ->
    Placeholder (ord "%" :: c :: rest) None c rest.

(** The text of a placeholder and the token that stands for it. *)
Definition placeholder_text (name : option str) (c : N) : str :=
  match name with
  | Some n => lit "%(" ++ n ++ lit ")" ++ [c]
  | None => [ord "%"; c]
  end.

Definition token_of {U : Unicode} (name : option str) (c : N) : str :=
  match name with
  | Some n => lit "__" ++ lower_case n ++ lit "__"
  | None => if N.eqb c (ord "d") then lit "__number__" else lit "__item__"
  end.

(** [Humanized s out]: [out] is [s] read left to right with every
    placeholder replaced by its token and every other character kept. *)
Inductive Humanized {U : Unicode} : str -> str -> Prop :=
| Humanized_nil : Humanized [] []
| Humanized_placeholder s name c rest out :
    Placeholder s name c rest ->
    Humanized rest out ->
    Humanized s (token_of name c ++ out)
| Humanized_copy ch s out :
    (forall name c rest, ~ Placeholder (ch :: s) name c rest) ->
    Humanized s out ->
    Humanized (ch :: s) (ch :: out).

(** [Token t tok rest]: [t] starts with the token [tok], two underscores,
    one or more word characters and two underscores, closed by the first
    two underscores that can close it; [rest] is the text after it. *)
Inductive Token {U : Unicode} : str -> str -> str -> Prop :=
| Token_intro w rest :
    w <> [] -> Forall Word w ->
    (forall a b r,
        w = a ++ b -> a <> [] -> b <> [] -> b ++ lit "__" <> lit "__" ++ r) ->
    Token (lit "__" ++ w ++ lit "__" ++ rest) (lit "__" ++ w ++ lit "__") rest.

(** No white space at the head of [s]. *)
Definition SpaceEnds (s : str) : Prop :=
  match s with c :: _ => ~ Space c | [] => True end.

(** [SpacedPlaceholder s (ws1, ph, ws2) rest]: [s] starts with the white
    space [ws1], the placeholder [ph] and all the white space [ws2] that
    follows it; [rest] is the text after that. *)
Inductive SpacedPlaceholder {U : Unicode}
  : str -> str * str * str -> str -> Prop :=
| SpacedPlaceholder_intro ws1 s name c ws2 rest :
    Forall Space ws1 ->
    Placeholder s name c (ws2 ++ rest) ->
    Forall Space ws2 -> SpaceEnds rest ->
    SpacedPlaceholder (ws1 ++ s) (ws1, placeholder_text name c, ws2) rest.

(** [Records s ps]: [ps] lists the placeholders of [s] with the white
    space around them, from left to right, each one starting where the
    one before it ended or at the first character from which there is
    one. *)
Inductive Records {U : Unicode} : str -> list (str * str * str) -> Prop :=
| Records_nil : Records [] []
| Records_placeholder s p rest ps :
    SpacedPlaceholder s p rest ->
    Records rest ps ->
    Records s (p :: ps)
| Records_skip ch s ps :
    (forall p rest, ~ SpacedPlaceholder (ch :: s) p rest) ->
    Records s ps ->
    Records (ch :: s) ps.

(** [SpacedToken t text rest]: [t] starts with [text], a token with the
    white space before it and all the white space after it; [rest] is
    the text after that. *)
Inductive SpacedToken {U : Unicode} : str -> str -> str -> Prop :=
| SpacedToken_intro ws1 t tok ws2 rest :
    Forall Space ws1 ->
    Token t tok (ws2 ++ rest) ->
    Forall Space ws2 -> SpaceEnds rest ->
    SpacedToken (ws1 ++ t) (ws1 ++ tok ++ ws2) rest.

(** A translation cut into the tokens it holds, each with the white
    space around it, and the characters between them. *)
Inductive segment := Kept (c : N) | Occurrence (text : str).

Inductive Segments {U : Unicode} : str -> list segment -> Prop :=
| Segments_nil : Segments [] []
| Segments_token t text rest segs :
    SpacedToken t text rest ->
    Segments rest segs ->
    Segments t (Occurrence text :: segs)
| Segments_keep ch t segs :
    (forall text rest, ~ SpacedToken (ch :: t) text rest) ->
    Segments t segs ->
    Segments (ch :: t) (Kept ch :: segs).

(** The number of tokens among the segments. *)
Fixpoint occurrences (segs : list segment) : nat :=
  match segs with
  | [] => 0
  | Kept _ :: segs' => occurrences segs'
  | Occurrence _ :: segs' => S (occurrences segs')
  end.

(** The segments with the token of rank [n], [n + 1], ... replaced by
    the entry of the same rank in [ps]: white space, placeholder, white
    space. *)
Fixpoint replaced (segs : list segment) (n : nat)
    (ps : list (str * str * str)) : str :=
  match segs with
  | [] => []
  | Kept c :: segs' => c :: replaced segs' n ps
  | Occurrence _ :: segs' =>
      match ps !! n with
      | Some (ws1, ph, ws2) => ws1 ++ ph ++ ws2
      | None => []
      end ++ replaced segs' (S n) ps
  end.

(** Past its first character [n] has no two underscores in a row and
    does not end in an underscore. *)
Fixpoint plain_tail (n : str) : bool :=
  match n with
  | [] => true
  | c :: n' =>
      negb (N.eqb c (ord "_") && match n' with
                                 | [] => true
                                 | d :: _ => N.eqb d (ord "_")
                                 end)
      && plain_tail n'
  end.

(** A placeholder name whose token is read back whole: in lower case it
    still is one or more word characters, with no two underscores in a
    row past the first character and no underscore at the end. *)
Definition PlainName {U : Unicode} (name : option str) : Prop :=
  match name with
  | Some n =>
      lower_case n <> [] /\ Forall Word (lower_case n)
      /\ plain_tail (tail (lower_case n)) = true
  | None => True
  end.

(** [Tidy s]: the placeholder names of [s] are plain, and no character
    of [s] outside its placeholders starts a token in the humanized
    text. *)
Inductive Tidy {U : Unicode} : str -> Prop :=
| Tidy_nil : Tidy []
| Tidy_placeholder s name c rest :
    Placeholder s name c rest ->
    PlainName name ->
    Tidy rest ->
    Tidy s
| Tidy_copy ch s :
    (forall name c rest, ~ Placeholder (ch :: s) name c rest) ->
    (forall out tok rest, Humanized s out -> ~ Token (ch :: out) tok rest) ->
    Tidy s ->
    Tidy (ch :: s).

(** *** The vocabulary, computed

    Functions that decide the relations above on a given text; the facts
    below tie them to the relations and to the matcher. *)

(** The longest prefix of [s] in class [p], and what follows it. *)
Fixpoint span (p : N -> bool) (s : str) : str * str :=
  match s with
  | c :: s' => if p c then let '(a, b) := span p s' in (c :: a, b) else ([], s)
  | [] => ([], [])
  end.

(** The placeholder at the head of [s]: its name if it has one, the
    conversion letter and the text after it. *)
Definition placeholder_at {U : Unicode} (s : str)
  : option (option str * N * str) :=
  match s with
  | p :: c :: rest =>
      if N.eqb p (ord "%") then
        if N.eqb c (ord "(") then
          match span is_word rest with
          | (c0 :: name, close :: conv :: rest') =>
              if N.eqb close (ord ")") && is_sd conv
              then Some (Some (c0 :: name), conv, rest') else None
          | _ => None
          end
        else if is_sd c then Some (None, c, rest) else None
      else None
  | _ => None
  end.

(** The end of a token whose first word character has been read: word
    characters up to the first two underscores.  Gives the text after
    the token. *)
Fixpoint token_end {U : Unicode} (t : str) : option str :=
  match t with
  | c :: t' =>
      if N.eqb c (ord "_")
         && match t' with d :: _ => N.eqb d (ord "_") | [] => false end
      then Some (tail t')
      else if is_word c then token_end t' else None
  | [] => None
  end.

(** The text after the token at the head of [t]. *)
Definition token_at {U : Unicode} (t : str) : option str :=
  match t with
  | a :: b :: c :: t' =>
      if N.eqb a (ord "_") && N.eqb b (ord "_") && is_word c
      then token_end t' else None
  | _ => None
  end.

(** [s] does not start with white space. *)
Definition no_space_head (s : str) : Prop :=
  match s with c :: _ => is_space c = false | [] => True end.

(** The text the items of a scan stand for. *)
Definition item_text (i : item) : str :=
  match i with Copy c => [c] | Hit m => m_text m end.

(** The items of a scan as segments. *)
Definition segment_of (i : item) : segment :=
  match i with Copy c => Kept c | Hit m => Occurrence (m_text m) end.

(** The number of matches among the items. *)
Fixpoint hits (items : list item) : nat :=
  match items with
  | [] => 0
  | Copy _ :: items' => hits items'
  | Hit _ :: items' => S (hits items')
  end.

(** The items with the match of rank [n], [n + 1], ... replaced by the
    entry of the same rank in [ps]. *)
Fixpoint positional (items : list item) (n : nat)
    (ps : list (str * str * str)) : str :=
  match items with
  | [] => []
  | Copy c :: items' => c :: positional items' n ps
  | Hit _ :: items' =>
      match ps !! n with
      | Some (ws1, ph, ws2) => ws1 ++ ph ++ ws2
      | None => []
      end ++ positional items' (S n) ps
  end.

(** The number of strings an entry adds to the extracted list. *)
Definition slots (translated : POEntry -> bool) (self : Command)
    (entry : POEntry) : nat :=
  if need_translate translated self entry
  then if truthy (msgid_plural entry) then 2 else 1
  else 0.


(** ** Sample data for the examples *)

Definition sample_command (skip fz : bool) : Command :=
  {| locale := []; exclude := []; skip_translated := skip; set_fuzzy := fz |}.

(** An entry with the given [msgid], [msgid_plural] and [msgstr]; three
    empty plural forms when it has a plural. *)
Definition sample_entry (id plural text : string) (fl : list str)
    (obs : bool) : POEntry :=
  {| msgid := lit id; msgid_plural := lit plural; msgstr := lit text;
     msgstr_plural :=
       if truthy (lit plural)
       then <[0%Z := []]> (<[1%Z := []]> (<[2%Z := []]> ∅)) else ∅;
     flags := fl; obsolete := obs |}.

(** A stand-in for [entry.translated()] in the examples: the entry has a
    [msgstr]. *)
Definition has_msgstr (e : POEntry) : bool := truthy (msgstr e).

Definition sample_catalog : list POEntry :=
  [ sample_entry "Hello" "" "" [] false;
    sample_entry "%d item" "%d items" "" [] false;
    sample_entry "Bye" "" "Au revoir" [] true ].

Definition sample_translations : list str :=
  [ lit "Bonjour"; lit "__number__ article"; lit "__number__ articles" ].

(** ** [translate_file]

    The catalog [polib.pofile] parsed stands for the file path, and the
    result is the catalog [po.save()] writes, or the exception that kept
    the call from reaching it.  [translate_strings] belongs to
    [autotranslate.utils]; the command only calls it. *)
Definition translate_file {U : Unicode}
    (translate_strings : list str -> str -> str -> bool -> list str)
    (translated : POEntry -> bool) (self : Command)
    (po : list POEntry) (target_language : str) : exn + list POEntry :=
  let strings := get_strings_to_translate translated self po in
  let translated_strings :=
    translate_strings strings target_language (lit "en") false in
  match update_translations translated self po translated_strings with
  | (_, inl e) => inl e
  | (po, inr _) => inr po
  end.

(** What an entry becomes when its own source strings come back as the
    translations. *)
Definition echoed (self : Command) (e : POEntry) : POEntry :=
  mark_fuzzy self
    (if truthy (msgid_plural e)
     then set_msgstr_plural
            (fill_plurals (msgid_plural e)
               (<[0%Z := msgid e]> (msgstr_plural e))) e
     else set_msgstr (msgid e) e).

(** ** Paths

    [os.path.join], [os.path.dirname] and [os.path.basename] as
    [posixpath] defines them. *)

Definition is_sep (c : N) : bool := N.eqb c (ord "/").

(** One round of the loop of [join]. *)
Definition join_step (path b : str) : str :=
  if match b with c :: _ => is_sep c | [] => false end then b
  else if match last path with Some c => is_sep c | None => true end
       then path ++ b
       else path ++ ord "/" :: b.

Definition path_join (a : str) (p : list str) : str := fold_left join_step p a.

(** [p[:i]] and [p[i:]] for [i = p.rfind('/') + 1]. *)
Definition rsplit_sep (p : str) : str * str :=
  let '(rtail, rhead) := span (λ c, negb (is_sep c)) (reverse p) in
  (reverse rhead, reverse rtail).

(** [head.rstrip('/')] *)
Definition rstrip_sep (head : str) : str :=
  reverse (span is_sep (reverse head)).2.

Definition path_dirname (p : str) : str :=
  let head := (rsplit_sep p).1 in
  if forallb is_sep head then head else rstrip_sep head.

Definition path_basename (p : str) : str := (rsplit_sep p).2.

(** [s.endswith(suffix)] *)
Definition endswith (s suffix : str) : bool :=
  bool_decide (drop (length s - length suffix) s = suffix).

(** ** [find_po_files]

    What the function asks of the operating system and of Django's
    settings. *)
Record OS := {
  (** the value of [DJANGO_SETTINGS_MODULE], [''] when it is not set *)
  settings_module : str;
  (** [settings.LOCALE_PATHS] *)
  LOCALE_PATHS : list str;
  (** [os.path.isdir] *)
  isdir : str -> bool;
  (** [os.path.abspath] *)
  abspath : str -> str;
  (** [glob.glob] *)
  glob : str -> list str;
  (** [os.walk]: the triples [(dirpath, dirnames, filenames)] *)
  walk : str -> list (str * list str * list str)
}.

(** The module does not import [CommandError]: the [raise] statement of
    line 163 fails on that name. *)
Inductive walker_exn := NameError.

(** Lines 148-157: the directories tried as base directories. *)
Definition candidate_basedirs (os : OS) : list str :=
  let basedirs := [path_join (lit "conf") [lit "locale"]; lit "locale"] in
  let basedirs :=
    if truthy (settings_module os)
    then basedirs ++ LOCALE_PATHS os else basedirs in
  basedirs
  ++ ('(dirpath, dirnames, _) ← walk os (lit ".");
      dirname ← dirnames;
      if bool_decide (dirname = lit "locale")
      then [path_join dirpath [dirname]] else []).

(** Line 160.  A Python set has no order of its own; the statements below
    only speak of membership. *)
Definition existing_basedirs (os : OS) : list str :=
  remove_dups
    (abspath os <$> filter (λ d, isdir os d = true) (candidate_basedirs os)).

(** Lines 168-175. *)
Definition selected_locales (os : OS) (locale exclude : list str)
  : list str :=
  let all_locales :=
    basedir ← existing_basedirs os;
    path_basename
      <$> filter (λ d, isdir os d = true) (glob os (basedir ++ lit "/*")) in
  let locales := match locale with [] => all_locales | _ => locale end in
  remove_dups (list_difference locales exclude).

(** Lines 178-181. *)
Definition search_dirs (locales : list str) (basedir : str) : list str :=
  match locales with
  | [] => [basedir]
  | _ => (λ l, path_join basedir [l; lit "LC_MESSAGES"]) <$> locales
  end.

(** Lines 183-187: the [.po] files under one directory. *)
Definition po_files_under (os : OS) (ldir : str) : list (str * str) :=
  '(dirpath, _, filenames) ← walk os ldir;
  filename ← filenames;
  if endswith filename (lit ".po") then [(dirpath, filename)] else [].

(** The pairs the generator yields, or the exception its first step
    raises. *)
Definition find_po_files (os : OS) (locale exclude : list str)
  : walker_exn + list (str * str) :=
  match existing_basedirs os with
  | [] => inl NameError
  | basedirs =>
      let locales := selected_locales os locale exclude in
      inr (basedir ← basedirs;
           ldir ← search_dirs locales basedir;
           po_files_under os ldir)
  end.

(** [handle], as the arguments of its calls of [translate_file], in
    order: the full name of the file and the target language. *)
Definition handle (os : OS) (self : Command)
  : walker_exn + list (str * str) :=
  match find_po_files os (locale self) (exclude self) with
  | inl e => inl e
  | inr result =>
      inr ((λ '(dirname, filename),
              (path_join dirname [filename],
               path_basename (path_dirname dirname))) <$> result)
  end.

(** A file system for the examples: [locale/] with [fr] and [de], each
    with [LC_MESSAGES/django.po]. *)
Definition sample_os : OS :=
  {| settings_module := [];
     LOCALE_PATHS := [];
     isdir := λ d, bool_decide (d ∈ [lit "locale"; lit "/p/locale/fr";
                                     lit "/p/locale/de"]);
     abspath := λ d, if match d with c :: _ => is_sep c | [] => false end
                     then d else lit "/p/" ++ d;
     glob := λ pat, if bool_decide (pat = lit "/p/locale/*")
                    then [lit "/p/locale/fr"; lit "/p/locale/de"] else [];
     walk := λ d,
       if bool_decide (d = lit ".")
       then [(lit ".", [lit "locale"], [])]
       else if bool_decide (d = lit "/p/locale/fr/LC_MESSAGES")
       then [(d, [], [lit "django.po"; lit "django.mo"])]
       else if bool_decide (d = lit "/p/locale/de/LC_MESSAGES")
       then [(d, [], [lit "django.po"])]
       else if bool_decide (d = lit "/p/locale")
       then [(d, [lit "fr"; lit "de"], []);
             (lit "/p/locale/fr", [lit "LC_MESSAGES"], []);
             (lit "/p/locale/fr/LC_MESSAGES", [],
              [lit "django.po"; lit "django.mo"]);
             (lit "/p/locale/de", [lit "LC_MESSAGES"], []);
             (lit "/p/locale/de/LC_MESSAGES", [], [lit "django.po"])]
       else [] |}.

(** A file system with no directory at all. *)
Definition empty_os : OS :=
  {| settings_module := []; LOCALE_PATHS := [];
     isdir := λ _, false; abspath := λ d, d;
     glob := λ _, []; walk := λ _, [] |}.

(** A file system in which [locale/fr/LC_MESSAGES] also has a
    subdirectory [extra] with a catalog of its own. *)
Definition nested_os : OS :=
  {| settings_module := [];
     LOCALE_PATHS := [];
     isdir := λ d, bool_decide (d ∈ [lit "locale"; lit "/p/locale/fr"]);
     abspath := λ d, if match d with c :: _ => is_sep c | [] => false end
                     then d else lit "/p/" ++ d;
     glob := λ pat, if bool_decide (pat = lit "/p/locale/*")
                    then [lit "/p/locale/fr"] else [];
     walk := λ d,
       if bool_decide (d = lit ".")
       then [(lit ".", [lit "locale"], [])]
       else if bool_decide (d = lit "/p/locale/fr/LC_MESSAGES")
       then [(d, [lit "extra"], [lit "django.po"]);
             (lit "/p/locale/fr/LC_MESSAGES/extra", [], [lit "extra.po"])]
       else [] |}.

(** * Facts *)

(** ** Characters and [span] *)

Section Facts.

Context {U : Unicode}.

Lemma is_alnum_ascii c : is_ascii c = true -> is_alnum c = ascii_alnum c.
Proof. unfold is_alnum. by intros ->. Qed.

Lemma lower_ascii s :
  forallb is_ascii s = true -> lower s = ascii_lower <$> s.
Proof. unfold lower. by intros ->. Qed.

Lemma is_space_not_percent c : is_space c = true -> N.eqb c (ord "%") = false.
Proof.
  intros H. destruct (N.eqb_spec c (ord "%")) as [->|]; [|done].
  vm_compute in H. discriminate.
Qed.

Lemma is_space_not_underscore c :
  is_space c = true -> N.eqb c (ord "_") = false.
Proof.
  intros H. destruct (N.eqb_spec c (ord "_")) as [->|]; [|done].
  vm_compute in H. discriminate.
Qed.

Lemma is_word_not_close c : is_word c = true -> N.eqb (ord ")") c = false.
Proof.
  intros H. destruct (N.eqb_spec (ord ")") c) as [<-|]; [|done].
  unfold is_word in H. rewrite is_alnum_ascii in H by done.
  vm_compute in H. discriminate.
Qed.

Lemma is_word_underscore : is_word (ord "_") = true.
Proof. unfold is_word. by rewrite N.eqb_refl, orb_true_r. Qed.

Lemma is_sd_not_newline c : is_sd c = true -> N.eqb c nl = false.
Proof.
  intros H. destruct (N.eqb_spec c nl) as [->|]; [|done].
  vm_compute in H. discriminate.
Qed.

Lemma is_sd_not_space c : is_sd c = true -> is_space c = false.
Proof.
  unfold is_sd. by intros [->%N.eqb_eq| ->%N.eqb_eq]%orb_true_iff.
Qed.

(** The tests of the character classes decide the classes. *)
Lemma is_space_Space c : is_space c = true <-> Space c.
Proof.
  unfold Space. split.
  - unfold is_space, in_range.
    rewrite !orb_true_iff, !andb_true_iff, !N.leb_le, !N.eqb_eq.
    rewrite !elem_of_cons. lia.
  - intros H. repeat (apply elem_of_cons in H as [->|H]; [done|]).
    by apply elem_of_nil in H.
Qed.

Lemma is_space_false c : is_space c = false <-> ~ Space c.
Proof. rewrite <- is_space_Space. by destruct (is_space c). Qed.

(** A test that holds of every code point below 128 holds of every
    ASCII character. *)
Lemma ascii_cases (P : N -> bool) :
  forallb P (N.of_nat <$> seq 0 128) = true ->
  forall c, (c < 128)%N -> P c = true.
Proof.
  intros H c Hc. rewrite forallb_forall in H. apply H.
  apply list_elem_of_In, list_elem_of_fmap. exists (N.to_nat c).
  split; [by rewrite N2Nat.id|]. apply elem_of_seq. lia.
Qed.

Lemma ascii_alnum_spec c :
  (c < 128)%N ->
  ascii_alnum c = bool_decide (c ∈ capitals ++ smalls ++ digits).
Proof.
  intros Hc.
  pose proof (ascii_cases
                (λ k, Bool.eqb (ascii_alnum k)
                        (bool_decide (k ∈ capitals ++ smalls ++ digits))))
    as H.
  apply Bool.eqb_prop, H; [vm_compute; reflexivity|done].
Qed.

Lemma alnum_list_ascii c : c ∈ capitals ++ smalls ++ digits -> (c < 128)%N.
Proof.
  intros H. apply list_elem_of_In in H.
  assert (Hall : forallb is_ascii (capitals ++ smalls ++ digits) = true)
    by done.
  rewrite forallb_forall in Hall. by apply N.ltb_lt, Hall.
Qed.

Lemma is_alnum_spec c :
  is_alnum c = true
  <-> c ∈ capitals ++ smalls ++ digits
      \/ ((128 <= c)%N /\ isalnum_beyond c = true).
Proof.
  unfold is_alnum, is_ascii.
  destruct (N.ltb_spec c 128) as [Hc|Hc].
  - rewrite ascii_alnum_spec, bool_decide_eq_true by done.
    split; [by left|]. intros [H|[H _]]; [done|lia].
  - split; [by right|]. intros [H%alnum_list_ascii|[_ H]]; [lia|done].
Qed.

Lemma is_word_Word c : is_word c = true <-> Word c.
Proof.
  unfold is_word, Word. rewrite orb_true_iff, N.eqb_eq, is_alnum_spec.
  tauto.
Qed.

Lemma paired_ascii_lower c :
  (c < 128)%N -> paired c capitals smalls = ascii_lower c.
Proof.
  intros Hc. apply N.eqb_eq.
  apply (ascii_cases (λ k, N.eqb (paired k capitals smalls) (ascii_lower k)));
    [vm_compute; reflexivity|done].
Qed.

Lemma forallb_is_ascii s :
  forallb is_ascii s = true <-> Forall (λ c, (c < 128)%N) s.
Proof.
  rewrite forallb_forall, Forall_forall. unfold is_ascii.
  split; intros H c Hc.
  - apply N.ltb_lt, H. by apply list_elem_of_In.
  - apply N.ltb_lt, H. by apply list_elem_of_In.
Qed.

(** The lower case of the statements is that of the code. *)
Lemma lower_case_lower s : lower_case s = lower s.
Proof.
  unfold lower_case, lower. case_decide as H.
  - pose proof H as ->%forallb_is_ascii. apply list_fmap_ext.
    intros i c Hi. apply paired_ascii_lower.
    by eapply Forall_lookup_1 in H.
  - destruct (forallb is_ascii s) eqn:E; [|done].
    by apply forallb_is_ascii in E.
Qed.

Lemma is_sd_Conversion c : is_sd c = true <-> Conversion c.
Proof. unfold is_sd, Conversion. by rewrite orb_true_iff, !N.eqb_eq. Qed.

Lemma Forall_is_space s : Forall (λ c, is_space c = true) s <-> Forall Space s.
Proof. apply Forall_proper; [|done]. intros c. apply is_space_Space. Qed.

Lemma Forall_is_word s : Forall (λ c, is_word c = true) s <-> Forall Word s.
Proof. apply Forall_proper; [|done]. intros c. apply is_word_Word. Qed.

Lemma no_space_head_SpaceEnds s : no_space_head s <-> SpaceEnds s.
Proof. destruct s as [|c s]; [done|]. apply is_space_false. Qed.

(** ** [span] *)

Lemma span_app p s : (span p s).1 ++ (span p s).2 = s.
Proof.
  induction s as [|c s IH]; simpl; [done|].
  destruct (p c); [|done]. destruct (span p s). simpl in *. by rewrite IH.
Qed.

Lemma span_Forall p s : Forall (λ c, p c = true) (span p s).1.
Proof.
  induction s as [|c s IH]; simpl; [done|].
  destruct (p c) eqn:E; [|done]. destruct (span p s). simpl in *.
  by constructor.
Qed.

Lemma span_stop p s :
  match (span p s).2 with c :: _ => p c = false | [] => True end.
Proof.
  induction s as [|c s IH]; simpl; [done|].
  destruct (p c) eqn:E; [|done]. by destruct (span p s).
Qed.

Lemma span_intro p a b :
  Forall (λ c, p c = true) a ->
  match b with c :: _ => p c = false | [] => True end ->
  span p (a ++ b) = (a, b).
Proof.
  intros Ha Hb. induction Ha as [|c a Hc Ha IH]; simpl.
  - destruct b as [|c b]; [done|]. simpl. by rewrite Hb.
  - by rewrite Hc, IH.
Qed.

Lemma take_app_suffix (a b : str) :
  take (length (a ++ b) - length b) (a ++ b) = a.
Proof.
  rewrite length_app, Nat.add_sub. by rewrite take_app_length.
Qed.

(** ** The matcher *)

Lemma head_bind {A B} (f : A -> list B) (l : list A) :
  (forall x, f x <> []) ->
  head (l ≫= f) = head l ≫= (λ x, head (f x)).
Proof.
  intros Hf. destruct l as [|x l]; [done|].
  rewrite bind_cons. simpl. specialize (Hf x). by destruct (f x).
Qed.

Lemma head_fmap {A B} (f : A -> B) (l : list A) :
  head (f <$> l) = f <$> head l.
Proof. by destruct l. Qed.

(** When what follows cannot start with a character of the class, a
    greedy repetition stands at the end of the longest run. *)
Lemma bind_star {B} p (K : str -> list B) s :
  (forall c u, p c = true -> K (c :: u) = []) ->
  star p s ≫= K = K (span p s).2.
Proof.
  intros HK. induction s as [|c s IH].
  - apply bind_singleton.
  - cbn [star span]. destruct (p c) eqn:E.
    + rewrite bind_app, bind_singleton, (HK c s E), app_nil_r, IH.
      by destruct (span p s).
    + apply bind_singleton.
Qed.

Lemma head_star p s : head (star p s) = Some (span p s).2.
Proof.
  induction s as [|c s IH]; simpl; [done|].
  destruct (p c); [|done].
  rewrite head_app, IH. by destruct (span p s).
Qed.

Lemma star_nonempty p s : star p s <> [].
Proof. intros H. pose proof (head_star p s) as E. by rewrite H in E. Qed.

(** [run] on the shapes the three patterns are built from. *)

Lemma run_chr_then c r s g :
  run (Cat (Chr c) r) s g
  = match s with
    | c' :: s' => if N.eqb c c' then run r s' g else []
    | [] => []
    end.
Proof.
  destruct s as [|c' s']; [done|]. cbn.
  destruct (N.eqb c c'); [|done]. cbn. by rewrite app_nil_r.
Qed.

Lemma run_star_then i p r s g :
  run (Cat (Group i (Star p)) r) s g
  = star p s ≫= λ u, run r u (set_group i (take (length s - length u) s) g).
Proof.
  cbn [run]. rewrite <- list_fmap_compose, list_fmap_bind.
  apply list_bind_ext; [intros u; reflexivity|reflexivity].
Qed.

Lemma run_group_plus_then i p r s g :
  run (Cat (Group i (Plus p)) r) s g
  = match s with
    | c :: s' =>
        if p c
        then star p s' ≫= λ u,
               run r u (set_group i (take (length s - length u) s) g)
        else []
    | [] => []
    end.
Proof.
  destruct s as [|c s']; [done|]. cbn [run one_then].
  destruct (p c); [|done].
  rewrite <- list_fmap_compose, list_fmap_bind.
  apply list_bind_ext; [intros u; reflexivity|reflexivity].
Qed.

Lemma run_plus_then p r s g :
  run (Cat (Plus p) r) s g
  = match s with
    | c :: s' => if p c then star p s' ≫= λ u, run r u g else []
    | [] => []
    end.
Proof.
  destruct s as [|c s']; [done|]. cbn [run one_then].
  destruct (p c); [|done].
  rewrite list_fmap_bind.
  apply list_bind_ext; [intros u; reflexivity|reflexivity].
Qed.

Lemma run_plus_lazy_then p r s g :
  run (Cat (PlusLazy p) r) s g
  = match s with
    | c :: s' => if p c then star_lazy p s' ≫= λ u, run r u g else []
    | [] => []
    end.
Proof.
  destruct s as [|c s']; [done|]. cbn [run one_then].
  destruct (p c); [|done].
  rewrite list_fmap_bind.
  apply list_bind_ext; [intros u; reflexivity|reflexivity].
Qed.

Lemma run_opt_then r1 r2 s g :
  run (Cat (Opt r1) r2) s g = run (Cat r1 r2) s g ++ run r2 s g.
Proof. cbn [run]. by rewrite bind_app, bind_singleton. Qed.

Lemma run_cat_assoc r1 r2 r3 s g :
  run (Cat (Cat r1 r2) r3) s g = run (Cat r1 (Cat r2 r3)) s g.
Proof.
  cbn [run]. induction (run r1 s g) as [|[s1 g1] l IH]; [done|].
  rewrite !bind_cons, bind_app. by rewrite IH.
Qed.

Lemma run_group_then i r1 r2 s g :
  run (Cat (Group i r1) r2) s g
  = run r1 s g ≫= λ '(s1, g1),
      run r2 s1 (set_group i (take (length s - length s1) s) g1).
Proof.
  cbn [run]. rewrite list_fmap_bind. apply list_bind_ext; [|done].
  intros [s1 g1]. reflexivity.
Qed.

Lemma run_cls p s g :
  run (Cls p) s g
  = match s with c :: s' => if p c then [(s', g)] else [] | [] => [] end.
Proof. destruct s as [|c s']; [done|]. cbn. by destruct (p c). Qed.

Lemma run_chr c s g :
  run (Chr c) s g
  = match s with
    | c' :: s' => if N.eqb c c' then [(s', g)] else []
    | [] => []
    end.
Proof.
  destruct s as [|c' s']; [done|]. cbn. by destruct (N.eqb c c').
Qed.

(** The parenthesised name: only the whole run of word characters can be
    followed by the closing parenthesis. *)
Lemma run_name_then {i : option nat} r s g :
  let name_re := match i with
                 | Some i => Group i (Plus is_word)
                 | None => Plus is_word
                 end in
  run (Cat (Cat (Chr (ord "(")) (Cat name_re (Chr (ord ")")))) r) s g
  = match s with
    | c :: s1 =>
        if N.eqb c (ord "(") then
          match span is_word s1 with
          | (c0 :: name, close :: s2) =>
              if N.eqb close (ord ")")
              then run r s2 match i with
                            | Some i => set_group i (c0 :: name) g
                            | None => g
                            end
              else []
          | _ => []
          end
        else []
    | [] => []
    end.
Proof.
  intros name_re. rewrite run_cat_assoc, run_chr_then.
  destruct s as [|c s1]; [done|]. rewrite (N.eqb_sym c (ord "(")).
  destruct (N.eqb (ord "(") c); [|done].
  rewrite run_cat_assoc.
  pose proof (span_app is_word s1) as Happ.
  destruct i as [i|]; subst name_re.
  - rewrite run_group_plus_then. destruct s1 as [|c0 s1]; [done|].
    cbn [span]. destruct (is_word c0) eqn:E0; [|done].
    rewrite bind_star.
    2:{ intros c1 u H1. rewrite run_chr_then. by rewrite is_word_not_close. }
    cbn [span] in Happ. rewrite E0 in Happ.
    destruct (span is_word s1) as [a b]. cbn [fst snd] in *.
    rewrite run_chr_then. destruct b as [|close s2]; [done|].
    rewrite (N.eqb_sym close (ord ")")).
    destruct (N.eqb (ord ")") close); [|done].
    rewrite <- Happ at 1 2. f_equal. f_equal.
    change (c0 :: a ++ close :: s2) with ((c0 :: a) ++ close :: s2).
    apply take_app_suffix.
  - rewrite run_plus_then. destruct s1 as [|c0 s1]; [done|].
    cbn [span]. destruct (is_word c0) eqn:E0; [|done].
    rewrite bind_star.
    2:{ intros c1 u H1. rewrite run_chr_then. by rewrite is_word_not_close. }
    destruct (span is_word s1) as [a b]. cbn [fst snd] in *.
    rewrite run_chr_then. destruct b as [|close s2]; [done|].
    rewrite (N.eqb_sym close (ord ")")). by destruct (N.eqb (ord ")") close).
Qed.

Lemma eqb_true_eq a b : N.eqb a b = true -> a = b.
Proof. apply N.eqb_eq. Qed.

(** What [placeholder_at] finds. *)
Lemma placeholder_at_Some s name c rest :
  placeholder_at s = Some (name, c, rest) ->
  s = placeholder_text name c ++ rest
  /\ is_sd c = true
  /\ match name with
     | Some n => n <> [] /\ Forall (λ x, is_word x = true) n
     | None => True
     end.
Proof.
  unfold placeholder_at. destruct s as [|p [|c1 s1]]; try done.
  destruct (N.eqb p (ord "%")) eqn:Ep; [|done]. apply eqb_true_eq in Ep as ->.
  destruct (N.eqb c1 (ord "(")) eqn:Ec.
  - apply eqb_true_eq in Ec as ->.
    pose proof (span_app is_word s1) as Happ.
    pose proof (span_Forall is_word s1) as Hall.
    destruct (span is_word s1) as [[|c0 n] [|close [|conv rest']]]; try done.
    destruct (N.eqb close (ord ")")) eqn:Eclose; [|done].
    apply eqb_true_eq in Eclose as ->.
    destruct (is_sd conv) eqn:Esd; [|done]. simpl.
    intros [= <- <- <-]. simpl in *. rewrite <- Happ.
    split; [|done]. unfold lit. simpl. by rewrite <- app_assoc.
  - destruct (is_sd c1) eqn:Esd; [|done]. by intros [= <- <- <-].
Qed.

Lemma is_word_close : is_word (ord ")") = false.
Proof.
  destruct (is_word (ord ")")) eqn:E; [|done].
  apply is_word_not_close in E. by rewrite N.eqb_refl in E.
Qed.

(** [placeholder_at] decides [Placeholder]. *)
Lemma placeholder_at_Placeholder s name c rest :
  placeholder_at s = Some (name, c, rest) <-> Placeholder s name c rest.
Proof.
  split.
  - intros (-> & Hc%is_sd_Conversion & Hn)%placeholder_at_Some.
    destruct name as [n|].
    + destruct Hn as [Hne Hn%Forall_is_word].
      unfold placeholder_text. rewrite <- !app_assoc. by constructor.
    + by constructor.
  - intros [n c' r Hne Hn%Forall_is_word Hc%is_sd_Conversion
           |c' r Hc%is_sd_Conversion].
    + change (lit "%(" ++ n ++ lit ")" ++ c' :: r)
        with (ord "%" :: ord "(" :: n ++ ord ")" :: c' :: r).
      unfold placeholder_at. rewrite !N.eqb_refl.
      rewrite span_intro by (done || apply is_word_close).
      destruct n as [|c0 n]; [done|]. by rewrite N.eqb_refl, Hc.
    + unfold placeholder_at. rewrite N.eqb_refl.
      destruct (N.eqb_spec c' (ord "(")) as [->|]; [done|]. by rewrite Hc.
Qed.

Lemma placeholder_at_None s :
  placeholder_at s = None <-> forall name c rest, ~ Placeholder s name c rest.
Proof.
  split.
  - intros E name c rest H%placeholder_at_Placeholder. congruence.
  - intros H. destruct (placeholder_at s) as [[[name c] rest]|] eqn:E; [|done].
    by apply placeholder_at_Placeholder, H in E.
Qed.

Lemma Placeholder_functional s name1 c1 rest1 name2 c2 rest2 :
  Placeholder s name1 c1 rest1 -> Placeholder s name2 c2 rest2 ->
  name1 = name2 /\ c1 = c2 /\ rest1 = rest2.
Proof.
  intros H1%placeholder_at_Placeholder H2%placeholder_at_Placeholder.
  rewrite H1 in H2. by injection H2 as -> -> ->.
Qed.

Lemma run_group_cls i p s g :
  run (Group i (Cls p)) s g
  = match s with
    | c :: s' => if p c then [(s', set_group i [c] g)] else []
    | [] => []
    end.
Proof.
  destruct s as [|c s']; [done|]. cbn. destruct (p c); [|done]. cbn.
  by rewrite Nat.sub_succ_l, Nat.sub_diag by lia.
Qed.

(** The pattern of [humanize_placeholders] matches in one way at most,
    and where [placeholder_at] says. *)
Lemma run_placeholder_re s g :
  run placeholder_re s g
  = match placeholder_at s with
    | Some (name, c, rest) =>
        [(rest, set_group 2 [c]
                  match name with Some n => set_group 1 n g | None => g end)]
    | None => []
    end.
Proof.
  unfold placeholder_re, placeholder_at. rewrite run_chr_then.
  destruct s as [|p s]; [done|]. rewrite (N.eqb_sym p (ord "%")).
  destruct (N.eqb (ord "%") p); [|by destruct s].
  rewrite run_opt_then, (run_name_then (i := Some 1)), run_group_cls.
  destruct s as [|c s1]; [done|].
  destruct (N.eqb c (ord "(")) eqn:Ec.
  - apply eqb_true_eq in Ec as ->. cbn [is_sd]. simpl (is_sd (ord "(")).
    rewrite app_nil_r.
    destruct (span is_word s1) as [[|c0 n] [|close s2]]; try done.
    destruct (N.eqb close (ord ")")); [|by destruct s2].
    rewrite run_group_cls. cbn [andb]. destruct s2 as [|conv rest']; [done|].
    by destruct (is_sd conv).
  - simpl. by destruct (is_sd c).
Qed.

(** The same placeholder without its groups, as the second pattern has
    it. *)
Lemma run_bare_placeholder s g :
  run (Cat (Chr (ord "%"))
         (Cat (Opt (Cat (Chr (ord "(")) (Cat (Plus is_word) (Chr (ord ")")))))
              (Cls is_sd))) s g
  = match placeholder_at s with
    | Some (_, _, rest) => [(rest, g)]
    | None => []
    end.
Proof.
  unfold placeholder_at. rewrite run_chr_then.
  destruct s as [|p s]; [done|]. rewrite (N.eqb_sym p (ord "%")).
  destruct (N.eqb (ord "%") p); [|by destruct s].
  rewrite run_opt_then, (run_name_then (i := None)), run_cls.
  destruct s as [|c s1]; [done|].
  destruct (N.eqb c (ord "(")) eqn:Ec.
  - apply eqb_true_eq in Ec as ->. simpl (is_sd (ord "(")).
    rewrite app_nil_r.
    destruct (span is_word s1) as [[|c0 n] [|close s2]]; try done.
    destruct (N.eqb close (ord ")")); [|by destruct s2].
    rewrite run_cls. cbn [andb]. destruct s2 as [|conv rest']; [done|].
    by destruct (is_sd conv).
  - simpl. by destruct (is_sd c).
Qed.

Lemma head_run_group_star i p s g :
  head (run (Group i (Star p)) s g)
  = Some ((span p s).2, set_group i (span p s).1 g).
Proof.
  cbn [run]. rewrite !head_fmap, head_star. simpl.
  do 3 f_equal. rewrite <- (span_app p s) at 1 3. apply take_app_suffix.
Qed.

Lemma run_group_star_nonempty i p s g : run (Group i (Star p)) s g <> [].
Proof.
  intros H. pose proof (head_run_group_star i p s g) as E. by rewrite H in E.
Qed.

(** Where the pattern run over [msgid] matches, and what its groups
    hold. *)
Lemma head_run_spaced s g :
  head (run spaced_placeholder_re s g)
  = match placeholder_at (span is_space s).2 with
    | Some (name, c, rest) =>
        Some ((span is_space rest).2,
              set_group 3 (span is_space rest).1
                (set_group 2 (placeholder_text name c)
                   (set_group 1 (span is_space s).1 g)))
    | None => None
    end.
Proof.
  unfold spaced_placeholder_re. rewrite run_star_then, bind_star.
  2:{ intros c u Hc. rewrite run_group_then, run_chr_then.
      rewrite N.eqb_sym, is_space_not_percent; done. }
  pose proof (span_app is_space s) as Happ.
  destruct (span is_space s) as [ws s']. cbn [fst snd] in *.
  rewrite <- Happ at 1 2. rewrite take_app_suffix.
  rewrite run_group_then, run_bare_placeholder.
  destruct (placeholder_at s') as [[[name c] rest]|] eqn:E; [|done].
  rewrite bind_singleton, head_run_group_star.
  apply placeholder_at_Some in E as [-> _].
  by rewrite take_app_suffix.
Qed.

(** The lazy repetition stops at the first two underscores. *)
Lemma head_star_lazy t g :
  head (star_lazy is_word t
        ≫= λ u, run (Cat (Chr (ord "_")) (Chr (ord "_"))) u g)
  = (λ rest, (rest, g)) <$> token_end t.
Proof.
  induction t as [|c t IH]; [done|].
  cbn [star_lazy token_end].
  assert (HK : run (Cat (Chr (ord "_")) (Chr (ord "_"))) (c :: t) g
               = if N.eqb c (ord "_")
                    && match t with
                       | d :: _ => N.eqb d (ord "_")
                       | [] => false
                       end
                 then [(tail t, g)] else []).
  { rewrite run_chr_then, run_chr, (N.eqb_sym c (ord "_")).
    destruct (N.eqb (ord "_") c); [|done]. destruct t as [|d t]; [done|].
    rewrite (N.eqb_sym d (ord "_")). by destruct (N.eqb (ord "_") d). }
  destruct (is_word c).
  - rewrite bind_cons, HK. by destruct (_ && _).
  - rewrite bind_singleton, HK. by destruct (_ && _).
Qed.

Lemma head_run_token_body t g :
  head (run (Cat (Chr (ord "_")) (Cat (Chr (ord "_"))
               (Cat (PlusLazy is_word)
                    (Cat (Chr (ord "_")) (Chr (ord "_")))))) t g)
  = (λ rest, (rest, g)) <$> token_at t.
Proof.
  unfold token_at. rewrite run_chr_then.
  destruct t as [|a t]; [done|].
  destruct (N.eqb (ord "_") a) eqn:Ea; rewrite (N.eqb_sym a (ord "_")), Ea;
    [|by destruct t as [|? [|? ?]]].
  rewrite run_chr_then. destruct t as [|b t]; [done|].
  destruct (N.eqb (ord "_") b) eqn:Eb; rewrite (N.eqb_sym b (ord "_")), Eb;
    [|by destruct t].
  rewrite run_plus_lazy_then. destruct t as [|c t]; [done|]. cbn [andb].
  destruct (is_word c); [|done]. apply head_star_lazy.
Qed.

Lemma token_end_suffix t rest :
  token_end t = Some rest -> exists tok, t = tok ++ rest /\ tok <> [].
Proof.
  revert rest. induction t as [|c t IH]; intros rest; [done|].
  cbn [token_end]. destruct (_ && _) eqn:E.
  - destruct t as [|d t]; [by rewrite andb_false_r in E|].
    intros [= <-]. by exists [c; d].
  - destruct (is_word c); [|done]. intros H.
    destruct (IH _ H) as (tok & -> & _). by exists (c :: tok).
Qed.

Lemma token_at_suffix t rest :
  token_at t = Some rest -> exists tok, t = tok ++ rest /\ tok <> [].
Proof.
  unfold token_at. destruct t as [|a [|b [|c t]]]; try done.
  destruct (_ && _); [|done]. intros H.
  destruct (token_end_suffix _ _ H) as (tok & -> & _).
  by exists (a :: b :: c :: tok).
Qed.

(** Where the pattern run over the translation matches. *)
Lemma head_run_token t g :
  head (run token_re t g)
  = match token_at (span is_space t).2 with
    | Some rest =>
        Some ((span is_space rest).2,
              set_group 3 (span is_space rest).1
                (set_group 2
                   (take (length (span is_space t).2 - length rest)
                      (span is_space t).2)
                   (set_group 1 (span is_space t).1 g)))
    | None => None
    end.
Proof.
  unfold token_re. rewrite run_star_then, bind_star.
  2:{ intros c u Hc. rewrite run_group_then, run_chr_then.
      rewrite N.eqb_sym, is_space_not_underscore; done. }
  pose proof (span_app is_space t) as Happ.
  destruct (span is_space t) as [ws t']. cbn [fst snd] in *.
  rewrite <- Happ at 1 2. rewrite take_app_suffix.
  rewrite run_group_then, head_bind.
  2:{ intros [s1 g1]. apply run_group_star_nonempty. }
  rewrite head_run_token_body.
  destruct (token_at t') as [rest|]; [|done]. simpl.
  apply head_run_group_star.
Qed.

(** ** [match_at] and [scan] *)

Lemma match_at_head n r s :
  match_at n r s
  = (λ '(rest, g), (MatchObj (take (length s - length rest) s) g, rest))
      <$> head (run r s (replicate (S n) None)).
Proof. unfold match_at. by destruct (run r s _) as [|[rest g] l]. Qed.

Lemma star_suffix p s u : u ∈ star p s -> exists pre, s = pre ++ u.
Proof.
  induction s as [|c s IH]; cbn [star].
  - intros ->%list_elem_of_singleton. by exists [].
  - destruct (p c).
    + intros [H| ->%list_elem_of_singleton]%elem_of_app; [|by exists []].
      destruct (IH H) as [pre ->]. by exists (c :: pre).
    + intros ->%list_elem_of_singleton. by exists [].
Qed.

Lemma star_lazy_suffix p s u : u ∈ star_lazy p s -> exists pre, s = pre ++ u.
Proof.
  induction s as [|c s IH]; cbn [star_lazy].
  - intros ->%list_elem_of_singleton. by exists [].
  - destruct (p c).
    + intros [->|H]%elem_of_cons; [by exists []|].
      destruct (IH H) as [pre ->]. by exists (c :: pre).
    + intros ->%list_elem_of_singleton. by exists [].
Qed.

Lemma one_then_suffix p rep s u :
  (forall s' u, u ∈ rep s' -> exists pre, s' = pre ++ u) ->
  u ∈ one_then p rep s -> exists pre, s = pre ++ u.
Proof.
  intros Hrep. destruct s as [|c s]; cbn; [by intros ?%elem_of_nil|].
  destruct (p c); [|by intros ?%elem_of_nil].
  intros H. destruct (Hrep _ _ H) as [pre ->]. by exists (c :: pre).
Qed.

(** Every match of a pattern leaves a suffix of the subject. *)
Lemma run_suffix r s g rest g' :
  (rest, g') ∈ run r s g -> exists pre, s = pre ++ rest.
Proof.
  revert s g rest g'.
  assert (Hone : forall s' u : str, u ∈ [s'] -> exists pre, s' = pre ++ u).
  { intros s' u ->%list_elem_of_singleton. by exists []. }
  induction r as [c|p|r1 IH1 r2 IH2|r IH|p|p|p|i r IH];
    intros s g rest g'; cbn [run].
  - intros (u & [= <- <-] & H)%list_elem_of_fmap.
    by apply (one_then_suffix _ _ _ _ Hone) in H.
  - intros (u & [= <- <-] & H)%list_elem_of_fmap.
    by apply (one_then_suffix _ _ _ _ Hone) in H.
  - intros ([s1 g1] & H2 & H1)%list_elem_of_bind.
    destruct (IH1 _ _ _ _ H1) as [pre1 ->].
    destruct (IH2 _ _ _ _ H2) as [pre2 ->].
    exists (pre1 ++ pre2). by rewrite app_assoc.
  - intros [H|[= <- <-]%list_elem_of_singleton]%elem_of_app;
      [by eapply IH|by exists []].
  - intros (u & [= <- <-] & H)%list_elem_of_fmap. by eapply star_suffix.
  - intros (u & [= <- <-] & H)%list_elem_of_fmap.
    apply (one_then_suffix _ _ _ _ (star_suffix p)) in H. done.
  - intros (u & [= <- <-] & H)%list_elem_of_fmap.
    apply (one_then_suffix _ _ _ _ (star_lazy_suffix p)) in H. done.
  - intros ([s1 g1] & [= -> ->] & H)%list_elem_of_fmap. by eapply IH.
Qed.

Lemma match_at_text n r s m rest :
  match_at n r s = Some (m, rest) -> s = m_text m ++ rest.
Proof.
  unfold match_at. destruct (run r s _) as [|[rest' g] l] eqn:E; [done|].
  intros [= <- <-]. simpl.
  assert (H : (rest', g) ∈ run r s (replicate (S n) None))
    by (rewrite E; left).
  apply run_suffix in H as [pre ->]. by rewrite take_app_suffix.
Qed.

Lemma scan_skip n r pre s : scan n r (pre ++ s) (length pre) = scan n r s 0.
Proof. induction pre as [|c pre IH]; [done|]. exact IH. Qed.

Lemma scan_hit n r s m rest :
  match_at n r s = Some (m, rest) ->
  m_text m <> [] ->
  scan n r s 0 = Hit m :: scan n r rest 0.
Proof.
  intros Hm Hne. pose proof (match_at_text _ _ _ _ _ Hm) as Hs.
  destruct (m_text m) as [|c pre] eqn:Et; [done|]. subst s.
  cbn [scan app]. cbn [app] in Hm. rewrite Hm, Et. cbn [length].
  by rewrite scan_skip.
Qed.

Lemma scan_miss n r c s :
  match_at n r (c :: s) = None ->
  scan n r (c :: s) 0 = Copy c :: scan n r s 0.
Proof. intros Hm. cbn [scan]. by rewrite Hm. Qed.

Lemma scan_text n r s k : scan n r s k ≫= item_text = drop k s.
Proof.
  revert k. induction s as [|c s IH]; intros [|k]; cbn [scan]; try done.
  - destruct (match_at n r []) as [[m rest]|] eqn:E; [|done].
    apply match_at_text in E. symmetry in E. apply app_eq_nil in E as [E _].
    by rewrite bind_singleton.
  - destruct (match_at n r (c :: s)) as [[m rest]|] eqn:E.
    + apply match_at_text in E.
      destruct (m_text m) as [|c' pre] eqn:Et; cbn [length].
      * rewrite !bind_cons, IH. cbn [item_text]. by rewrite Et.
      * rewrite bind_cons, IH. cbn [item_text]. rewrite Et.
        injection E as <- ->. by rewrite drop_app_length.
    + by rewrite bind_cons, IH.
Qed.

(** Popping from the front is reading by rank. *)
Lemma sub_pop_positional items ps n :
  sub_pop items (drop n ps)
  = if decide (hits items <= length ps - n)
    then inr (positional items n ps) else inl IndexError.
Proof.
  revert n.
  induction items as [|[c|m] items IH]; intros n;
    cbn [sub_pop positional hits pop_placeholder].
  - case_decide; [done|lia].
  - rewrite IH. by case_decide.
  - destruct (drop n ps) as [|[[ws1 ph] ws2] rest] eqn:E; cbn [length].
    + apply (f_equal length) in E. rewrite length_drop in E. cbn in E.
      case_decide; [lia|done].
    + assert (Hn : ps !! n = Some (ws1, ph, ws2)).
      { rewrite <- (Nat.add_0_r n), <- lookup_drop. by rewrite E. }
      assert (Hrest : rest = drop (S n) ps).
      { rewrite <- Nat.add_1_l, Nat.add_comm, <- drop_drop. by rewrite E. }
      cbn [pop_placeholder]. rewrite Hrest, IH, Hn.
      apply lookup_lt_Some in Hn.
      repeat case_decide; try lia; done.
Qed.

(** ** [humanize_placeholders] *)

Lemma match_at_placeholder s :
  match_at 2 placeholder_re s
  = match placeholder_at s with
    | Some (name, c, rest) =>
        Some (MatchObj (placeholder_text name c) [None; name; Some [c]], rest)
    | None => None
    end.
Proof.
  rewrite match_at_head, run_placeholder_re.
  destruct (placeholder_at s) as [[[name c] rest]|] eqn:E; [|done].
  apply placeholder_at_Some in E as (-> & _ & _).
  cbn [head fmap option_fmap option_map]. rewrite take_app_suffix.
  by destruct name.
Qed.

Lemma humanize_match_token name c :
  match name with Some n => n <> [] | None => True end ->
  humanize_match (MatchObj (placeholder_text name c) [None; name; Some [c]])
  = token_of name c.
Proof.
  unfold humanize_match, token_of, group. cbn.
  destruct name as [[|c0 n]|];
    [done|intros _; by rewrite lower_case_lower|]. intros _.
  destruct (N.eqb_spec c (ord "d")) as [->|Hc]; [done|].
  rewrite bool_decide_eq_false_2; [done|]. intros [= ->]. done.
Qed.

Lemma placeholder_text_nonempty name c : placeholder_text name c <> [].
Proof. by destruct name. Qed.

Lemma humanize_hit s name c rest :
  placeholder_at s = Some (name, c, rest) ->
  humanize_placeholders s = token_of name c ++ humanize_placeholders rest.
Proof.
  intros E. unfold humanize_placeholders, sub.
  pose proof (match_at_placeholder s) as Hm. rewrite E in Hm.
  rewrite (scan_hit _ _ _ _ _ Hm) by apply placeholder_text_nonempty.
  rewrite bind_cons. f_equal. apply humanize_match_token.
  apply placeholder_at_Some in E as (_ & _ & Hn).
  destruct name; [by destruct Hn|done].
Qed.

Lemma humanize_copy ch s :
  placeholder_at (ch :: s) = None ->
  humanize_placeholders (ch :: s) = ch :: humanize_placeholders s.
Proof.
  intros E. unfold humanize_placeholders, sub.
  pose proof (match_at_placeholder (ch :: s)) as Hm. rewrite E in Hm.
  by rewrite (scan_miss _ _ _ _ Hm), bind_cons.
Qed.

Lemma placeholder_at_shorter s name c rest :
  placeholder_at s = Some (name, c, rest) -> length rest < length s.
Proof.
  intros (-> & _ & _)%placeholder_at_Some. rewrite length_app.
  pose proof (placeholder_text_nonempty name c).
  destruct (placeholder_text name c); [done|]. simpl. lia.
Qed.

Lemma humanize_nil : humanize_placeholders [] = [].
Proof. reflexivity. Qed.

Lemma humanized_humanize s : Humanized s (humanize_placeholders s).
Proof.
  remember (length s) as n eqn:Hn. revert s Hn.
  induction n as [n IH] using lt_wf_ind. intros s ->.
  destruct (placeholder_at s) as [[[name c] rest]|] eqn:E.
  - rewrite (humanize_hit _ _ _ _ E).
    eapply Humanized_placeholder; [by apply placeholder_at_Placeholder|].
    eapply IH; [|done]. by eapply placeholder_at_shorter.
  - destruct s as [|ch s]; [constructor|].
    rewrite humanize_copy by done.
    constructor; [by apply placeholder_at_None|].
    eapply IH; [|done]. simpl. lia.
Qed.

Lemma Humanized_functional s out1 out2 :
  Humanized s out1 -> Humanized s out2 -> out1 = out2.
Proof.
  intros H1. revert out2.
  induction H1 as [|s name c rest out E H1 IH|ch s out E H1 IH];
    intros out2 H2.
  - inversion H2 as [|s' name' c' rest' out' E'|]; subst; [done|].
    inversion E'.
  - inversion H2 as [|s' name' c' rest' out' E' H2'|ch' s' out' E' H2'];
      subst.
    + inversion E.
    + destruct (Placeholder_functional _ _ _ _ _ _ _ E E') as (-> & -> & ->).
      f_equal. by apply IH.
    + by apply E' in E.
  - inversion H2 as [|s' name' c' rest' out' E' H2'|ch' s' out' E' H2'];
      subst.
    + by apply E in E'.
    + f_equal. by apply IH.
Qed.

Lemma Humanized_humanize s out :
  Humanized s out <-> out = humanize_placeholders s.
Proof.
  split; [|intros ->; apply humanized_humanize].
  intros H. eapply Humanized_functional; [done|apply humanized_humanize].
Qed.

Lemma endswith_nl_app s t :
  t <> [] -> endswith_nl (s ++ t) = endswith_nl t.
Proof.
  intros Ht. unfold endswith_nl.
  destruct t as [|c t] using rev_ind; [done|].
  by rewrite app_assoc, !last_snoc.
Qed.


(** ** The round trip *)

Lemma match_at_spaced s :
  match_at 3 spaced_placeholder_re s
  = match placeholder_at (span is_space s).2 with
    | Some (name, c, rest) =>
        Some (MatchObj
                ((span is_space s).1 ++ placeholder_text name c
                 ++ (span is_space rest).1)
                [None; Some (span is_space s).1;
                 Some (placeholder_text name c);
                 Some (span is_space rest).1],
              (span is_space rest).2)
    | None => None
    end.
Proof.
  rewrite match_at_head, head_run_spaced.
  pose proof (span_app is_space s) as Hs.
  destruct (span is_space s) as [ws s']. cbn [fst snd] in *.
  destruct (placeholder_at s') as [[[name c] rest]|] eqn:E; [|done].
  apply placeholder_at_Some in E as (E & _ & _).
  pose proof (span_app is_space rest) as Hr.
  destruct (span is_space rest) as [ws2 rest2]. cbn [fst snd] in *.
  subst s s' rest. cbn [fmap option_fmap option_map]. do 3 f_equal.
  rewrite !app_assoc. rewrite take_app_suffix. by rewrite <- !app_assoc.
Qed.

Lemma match_at_token t :
  match_at 3 token_re t
  = match token_at (span is_space t).2 with
    | Some rest =>
        Some (MatchObj
                (take (length t - length (span is_space rest).2) t)
                [None; Some (span is_space t).1;
                 Some (take (length (span is_space t).2 - length rest)
                         (span is_space t).2);
                 Some (span is_space rest).1],
              (span is_space rest).2)
    | None => None
    end.
Proof.
  rewrite match_at_head, head_run_token.
  by destruct (token_at (span is_space t).2).
Qed.

Lemma findall3_hit r s m rest :
  match_at 3 r s = Some (m, rest) ->
  m_text m <> [] ->
  findall3 r s
  = (default [] (group m 1), default [] (group m 2), default [] (group m 3))
    :: findall3 r rest.
Proof.
  intros Hm Hne. unfold findall3. by rewrite (scan_hit _ _ _ _ _ Hm Hne).
Qed.

Lemma findall3_miss r c s :
  match_at 3 r (c :: s) = None -> findall3 r (c :: s) = findall3 r s.
Proof. intros Hm. unfold findall3. by rewrite (scan_miss _ _ _ _ Hm). Qed.

Lemma findall3_nil r : match_at 3 r [] = None -> findall3 r [] = [].
Proof. intros Hm. unfold findall3. cbn [scan]. by rewrite Hm. Qed.

Lemma spaced_text_nonempty (ws1 ws2 : str) name c :
  ws1 ++ placeholder_text name c ++ ws2 <> [].
Proof.
  pose proof (placeholder_text_nonempty name c).
  destruct ws1, (placeholder_text name c); done.
Qed.

Lemma spaced_rest_shorter s name c rest :
  placeholder_at (span is_space s).2 = Some (name, c, rest) ->
  length (span is_space rest).2 < length s.
Proof.
  intros E%placeholder_at_shorter.
  pose proof (f_equal length (span_app is_space s)) as Hs.
  pose proof (f_equal length (span_app is_space rest)) as Hr.
  rewrite length_app in Hs, Hr. lia.
Qed.

Lemma Placeholder_no_space_head s name c rest :
  Placeholder s name c rest -> no_space_head s.
Proof. by destruct 1. Qed.

(** [SpacedPlaceholder], computed. *)
Lemma SpacedPlaceholder_iff s p rest :
  SpacedPlaceholder s p rest
  <-> exists name c r,
        placeholder_at (span is_space s).2 = Some (name, c, r)
        /\ p = ((span is_space s).1, placeholder_text name c,
                (span is_space r).1)
        /\ rest = (span is_space r).2.
Proof.
  split.
  - intros [ws1 s0 name c ws2 rest' Hws1 Hp Hws2 Hend].
    exists name, c, (ws2 ++ rest').
    rewrite (span_intro is_space ws1 s0)
      by (by apply Forall_is_space || by eapply Placeholder_no_space_head).
    rewrite (span_intro is_space ws2 rest')
      by (by apply Forall_is_space || by apply no_space_head_SpaceEnds).
    split; [by apply placeholder_at_Placeholder|done].
  - intros (name & c & r & E & -> & ->).
    pose proof (span_app is_space s) as Hs.
    pose proof (span_Forall is_space s) as Hws.
    pose proof (span_app is_space r) as Hr.
    pose proof (span_Forall is_space r) as Hws2.
    pose proof (span_stop is_space r) as Hstop.
    destruct (span is_space s) as [ws s0].
    destruct (span is_space r) as [ws2 rest2]. cbn [fst snd] in *.
    subst s r. constructor.
    + by apply Forall_is_space.
    + by apply placeholder_at_Placeholder.
    + by apply Forall_is_space.
    + by apply no_space_head_SpaceEnds.
Qed.

(** What [restore_placeholders] records of [msgid]. *)
Lemma findall3_Records s : Records s (findall3 spaced_placeholder_re s).
Proof.
  remember (length s) as n eqn:Hn. revert s Hn.
  induction n as [n IH] using lt_wf_ind. intros s ->.
  destruct s as [|c s1]; [rewrite findall3_nil by done; constructor|].
  pose proof (match_at_spaced (c :: s1)) as Hm.
  destruct (placeholder_at (span is_space (c :: s1)).2)
    as [[[name cv] rest]|] eqn:E.
  - rewrite (findall3_hit _ _ _ _ Hm) by apply spaced_text_nonempty.
    cbn [group m_groups lookup list_lookup default].
    eapply Records_placeholder.
    + apply SpacedPlaceholder_iff. by exists name, cv, rest.
    + eapply IH; [|done]. by eapply spaced_rest_shorter.
  - rewrite (findall3_miss _ _ _ Hm). apply Records_skip.
    + intros p rest (name & cv & r & E' & _)%SpacedPlaceholder_iff.
      congruence.
    + eapply IH; [|done]. simpl. lia.
Qed.

Lemma Records_findall3 s ps :
  Records s ps <-> ps = findall3 spaced_placeholder_re s.
Proof.
  split; [|intros ->; apply findall3_Records].
  induction 1 as [|s p rest ps Hp Hr IH|ch s ps Hp Hr IH].
  - by rewrite findall3_nil.
  - apply SpacedPlaceholder_iff in Hp as (name & c & r & E & -> & ->).
    pose proof (match_at_spaced s) as Hm. rewrite E in Hm.
    rewrite (findall3_hit _ _ _ _ Hm) by apply spaced_text_nonempty.
    cbn [group m_groups lookup list_lookup default]. by rewrite IH.
  - pose proof (match_at_spaced (ch :: s)) as Hm.
    destruct (placeholder_at (span is_space (ch :: s)).2)
      as [[[name cv] rest]|] eqn:E.
    + exfalso. eapply Hp. apply SpacedPlaceholder_iff.
      by exists name, cv, rest.
    + by rewrite (findall3_miss _ _ _ Hm).
Qed.

Lemma placeholder_at_percent c s :
  N.eqb c (ord "%") = false -> placeholder_at (c :: s) = None.
Proof. intros H. unfold placeholder_at. destruct s; [done|]. by rewrite H. Qed.

Lemma humanize_spaces ws u :
  Forall (λ c, is_space c = true) ws ->
  humanize_placeholders (ws ++ u) = ws ++ humanize_placeholders u.
Proof.
  induction 1 as [|c ws Hc Hws IH]; [done|]. cbn [app].
  rewrite humanize_copy
    by by apply placeholder_at_percent, is_space_not_percent.
  by rewrite IH.
Qed.


Lemma token_of_head name c :
  exists t, token_of name c = ord "_" :: ord "_" :: t.
Proof.
  destruct name as [n|]; [by eexists|]. cbn.
  destruct (N.eqb c (ord "d")); by eexists.
Qed.

Lemma humanize_no_space_head s :
  no_space_head s -> no_space_head (humanize_placeholders s).
Proof.
  intros Hs. destruct (placeholder_at s) as [[[name c] rest]|] eqn:E.
  - rewrite (humanize_hit _ _ _ _ E).
    by destruct (token_of_head name c) as [t ->].
  - destruct s as [|ch s]; [done|]. by rewrite humanize_copy.
Qed.

(** The first two underscores that can close a token. *)
Lemma token_end_Some t rest :
  token_end t = Some rest ->
  exists v,
    t = v ++ lit "__" ++ rest /\ Forall Word v
    /\ forall a b r, v = a ++ b -> b <> [] -> b ++ lit "__" <> lit "__" ++ r.
Proof.
  revert rest. induction t as [|c t IH]; intros rest; [done|].
  cbn [token_end].
  destruct (N.eqb c (ord "_")
            && match t with d :: _ => N.eqb d (ord "_") | [] => false end)
    eqn:E.
  - apply andb_true_iff in E as [->%N.eqb_eq E].
    destruct t as [|d t]; [done|]. apply N.eqb_eq in E as ->.
    intros [= <-]. exists []. split_and!; [done|done|].
    intros a b r Hab Hb. by destruct a, b.
  - destruct (is_word c) eqn:Hc; [|done]. intros H.
    apply IH in H as (v & -> & Hv & Hmin). exists (c :: v).
    split_and!; [done|constructor; [by apply is_word_Word|done]|].
    intros a b r Hab Hb Heq. destruct a as [|x a].
    + simpl in Hab. subst b. injection Heq as -> Heq.
      rewrite N.eqb_refl in E. cbn [andb] in E.
      destruct v as [|d v].
      * change (lit "__") with [ord "_"; ord "_"] in E. cbn [app] in E.
        by rewrite N.eqb_refl in E.
      * injection Heq as -> _. cbn [app] in E. by rewrite N.eqb_refl in E.
    + injection Hab as -> ->. by eapply Hmin.
Qed.

Lemma token_end_intro v rest :
  Forall Word v ->
  (forall a b r, v = a ++ b -> b <> [] -> b ++ lit "__" <> lit "__" ++ r) ->
  token_end (v ++ lit "__" ++ rest) = Some rest.
Proof.
  induction 1 as [|c v Hc Hv IH]; intros Hmin.
  - change (token_end (ord "_" :: ord "_" :: rest) = Some rest).
    cbn [token_end]. by rewrite !N.eqb_refl.
  - cbn [app token_end].
    destruct (N.eqb c (ord "_")
              && match v ++ lit "__" ++ rest with
                 | d :: _ => N.eqb d (ord "_")
                 | [] => false
                 end) eqn:E.
    + exfalso. apply andb_true_iff in E as [->%N.eqb_eq E].
      destruct v as [|d v].
      * by apply (Hmin [] [ord "_"] [ord "_"]).
      * cbn [app] in E. apply N.eqb_eq in E as ->.
        by apply (Hmin [] (ord "_" :: ord "_" :: v) (v ++ lit "__")).
    + apply is_word_Word in Hc. rewrite Hc. apply IH.
      intros a b r Hab Hb. apply (Hmin (c :: a) b r); [|done].
      by rewrite Hab.
Qed.

(** [token_at] decides [Token]. *)
Lemma token_at_Token t rest :
  token_at t = Some rest <-> exists tok, Token t tok rest.
Proof.
  split.
  - destruct t as [|a [|b [|c t]]]; try done. unfold token_at.
    destruct (N.eqb_spec a (ord "_")) as [->|]; [|done].
    destruct (N.eqb_spec b (ord "_")) as [->|]; [|done].
    destruct (is_word c) eqn:Hc; [|done]. cbn [andb].
    intros (v & -> & Hv & Hmin)%token_end_Some.
    exists (lit "__" ++ (c :: v) ++ lit "__").
    apply (Token_intro (c :: v) rest); [done| |].
    + constructor; [by apply is_word_Word|done].
    + intros x y r Hxy Hx Hy. destruct x as [|x0 x]; [done|].
      injection Hxy as -> ->. by eapply Hmin.
  - intros [tok [w rest' Hne Hw Hmin]].
    destruct w as [|c v]; [done|]. apply Forall_cons in Hw as [Hc Hv].
    change (token_at (ord "_" :: ord "_" :: c :: v ++ lit "__" ++ rest')
            = Some rest').
    unfold token_at. apply is_word_Word in Hc. rewrite !N.eqb_refl, Hc.
    cbn [andb]. apply token_end_intro; [done|].
    intros a b r Hab Hb. apply (Hmin (c :: a) b r); [|done|done].
    by rewrite Hab.
Qed.

Lemma token_at_None t :
  token_at t = None <-> forall tok rest, ~ Token t tok rest.
Proof.
  split.
  - intros E tok rest H. assert (token_at t = Some rest); [|congruence].
    apply token_at_Token. by exists tok.
  - intros H. destruct (token_at t) as [rest|] eqn:E; [|done].
    apply token_at_Token in E as [tok E]. by apply H in E.
Qed.

Lemma Token_text t tok rest :
  Token t tok rest ->
  t = tok ++ rest /\ exists u, tok = ord "_" :: ord "_" :: u.
Proof.
  intros [w rest' _ _ _]. split; [by rewrite <- !app_assoc|by eexists].
Qed.

Lemma Token_functional t tok1 rest1 tok2 rest2 :
  Token t tok1 rest1 -> Token t tok2 rest2 -> tok1 = tok2 /\ rest1 = rest2.
Proof.
  intros H1 H2.
  assert (Hr : Some rest1 = Some rest2).
  { transitivity (token_at t); [symmetry|]; apply token_at_Token; by eexists. }
  injection Hr as <-. split; [|done].
  apply Token_text in H1 as [H1 _]. apply Token_text in H2 as [H2 _].
  rewrite H1 in H2. by apply app_inv_tail in H2.
Qed.

Lemma Token_no_space_head t tok rest : Token t tok rest -> no_space_head t.
Proof. by destruct 1. Qed.

Lemma spaced_token_rest_shorter t r :
  token_at (span is_space t).2 = Some r ->
  length (span is_space r).2 < length t.
Proof.
  intros [tok [E [u ->]]%Token_text]%token_at_Token.
  pose proof (f_equal length (span_app is_space t)) as Hs.
  pose proof (f_equal length (span_app is_space r)) as Hr.
  rewrite E in Hs. rewrite !length_app in Hs, Hr. simpl in Hs.
  rewrite length_app in Hs. lia.
Qed.

(** [SpacedToken], computed. *)
Lemma SpacedToken_iff t text rest :
  SpacedToken t text rest
  <-> exists r,
        token_at (span is_space t).2 = Some r
        /\ rest = (span is_space r).2
        /\ text = take (length t - length rest) t.
Proof.
  split.
  - intros [ws1 t0 tok ws2 rest' Hws1 Ht Hws2 Hend].
    exists (ws2 ++ rest').
    rewrite (span_intro is_space ws1 t0)
      by (by apply Forall_is_space || by eapply Token_no_space_head).
    rewrite (span_intro is_space ws2 rest')
      by (by apply Forall_is_space || by apply no_space_head_SpaceEnds).
    cbn [fst snd]. split_and!; [apply token_at_Token; by exists tok|done|].
    apply Token_text in Ht as [-> _].
    replace (ws1 ++ tok ++ ws2 ++ rest') with ((ws1 ++ tok ++ ws2) ++ rest')
      by (by rewrite <- !app_assoc).
    by rewrite take_app_suffix.
  - intros (r & [tok Ht]%token_at_Token & -> & ->).
    pose proof (span_app is_space t) as Hs.
    pose proof (span_Forall is_space t) as Hws.
    pose proof (span_app is_space r) as Hr.
    pose proof (span_Forall is_space r) as Hws2.
    pose proof (span_stop is_space r) as Hstop.
    destruct (span is_space t) as [ws t0].
    destruct (span is_space r) as [ws2 rest2]. cbn [fst snd] in *.
    subst t r. pose proof (Token_text _ _ _ Ht) as [E _].
    replace (take (length (ws ++ t0) - length rest2) (ws ++ t0))
      with (ws ++ tok ++ ws2).
    + constructor; [by apply Forall_is_space|done|by apply Forall_is_space|].
      by apply no_space_head_SpaceEnds.
    + rewrite E.
      replace (ws ++ tok ++ ws2 ++ rest2) with ((ws ++ tok ++ ws2) ++ rest2)
        by (by rewrite <- !app_assoc).
      by rewrite take_app_suffix.
Qed.

Lemma take_nonempty (rest t : str) :
  length rest < length t -> take (length t - length rest) t <> [].
Proof.
  intros H E%(f_equal length). rewrite length_take in E. simpl in E. lia.
Qed.

(** The tokens [restore_placeholders] finds in the translation. *)
Lemma scan_Segments t : Segments t (segment_of <$> scan 3 token_re t 0).
Proof.
  remember (length t) as n eqn:Hn. revert t Hn.
  induction n as [n IH] using lt_wf_ind. intros t ->.
  pose proof (match_at_token t) as Hk.
  destruct t as [|c t1].
  { cbn [scan]. rewrite Hk. constructor. }
  destruct (token_at (span is_space (c :: t1)).2) as [r|] eqn:E.
  - pose proof (spaced_token_rest_shorter _ _ E) as Hlen.
    rewrite (scan_hit _ _ _ _ _ Hk) by by apply take_nonempty.
    rewrite fmap_cons. cbn [segment_of m_text]. eapply Segments_token.
    + apply SpacedToken_iff. by exists r.
    + by eapply IH.
  - rewrite (scan_miss _ _ _ _ Hk), fmap_cons. apply Segments_keep.
    + intros text rest (r & E' & _)%SpacedToken_iff. congruence.
    + eapply IH; [|done]. simpl. lia.
Qed.

Lemma Segments_scan t segs :
  Segments t segs <-> segs = segment_of <$> scan 3 token_re t 0.
Proof.
  split; [|intros ->; apply scan_Segments].
  induction 1 as [|t text rest segs Ht Hs IH|ch t segs Ht Hs IH].
  - pose proof (match_at_token []) as Hk. cbn [scan]. by rewrite Hk.
  - apply SpacedToken_iff in Ht as (r & E & -> & ->).
    pose proof (match_at_token t) as Hk. rewrite E in Hk.
    pose proof (spaced_token_rest_shorter _ _ E) as Hlen.
    rewrite (scan_hit _ _ _ _ _ Hk) by by apply take_nonempty.
    by rewrite fmap_cons, IH.
  - pose proof (match_at_token (ch :: t)) as Hk.
    destruct (token_at (span is_space (ch :: t)).2) as [r|] eqn:E.
    + exfalso. eapply Ht. apply SpacedToken_iff. by exists r.
    + by rewrite (scan_miss _ _ _ _ Hk), fmap_cons, IH.
Qed.

Lemma occurrences_hits items : occurrences (segment_of <$> items) = hits items.
Proof.
  induction items as [|[c|m] items IH]; [done| |];
    rewrite fmap_cons; cbn [segment_of occurrences hits]; by rewrite IH.
Qed.

Lemma replaced_positional items n ps :
  replaced (segment_of <$> items) n ps = positional items n ps.
Proof.
  revert n. induction items as [|[c|m] items IH]; intros n; [done| |];
    rewrite fmap_cons; cbn [segment_of replaced positional]; by rewrite IH.
Qed.

Lemma token_end_plain w after :
  Forall (λ c, is_word c = true) w ->
  plain_tail w = true ->
  token_end (w ++ ord "_" :: ord "_" :: after) = Some after.
Proof.
  induction 1 as [|c w Hc Hw IH]; [done|].
  cbn [plain_tail app token_end]. intros [H1 H2]%andb_true_iff.
  rewrite Hc, (IH H2).
  destruct (N.eqb c (ord "_")); [|done]. cbn [andb negb] in *.
  destruct w as [|d w]; [done|]. cbn [app]. by destruct (N.eqb d (ord "_")).
Qed.

Lemma is_word_ascii c :
  is_ascii c = true -> ascii_alnum c = true -> is_word c = true.
Proof. intros Hc H. unfold is_word. by rewrite is_alnum_ascii, H. Qed.

Lemma token_at_word c0 w after :
  Forall (λ c, is_word c = true) (c0 :: w) ->
  plain_tail w = true ->
  token_at ((lit "__" ++ (c0 :: w) ++ lit "__") ++ after) = Some after.
Proof.
  intros [Hc0 Hw]%Forall_cons Hp.
  change (token_at (ord "_" :: ord "_" :: c0 :: (w ++ lit "__") ++ after)
          = Some after).
  unfold token_at. rewrite !N.eqb_refl, Hc0. cbn [andb].
  rewrite <- app_assoc. by apply token_end_plain.
Qed.

Lemma token_at_token_of name c after :
  PlainName name -> token_at (token_of name c ++ after) = Some after.
Proof.
  destruct name as [n|]; cbn [PlainName token_of].
  - intros (Hne & Hw & Hp). destruct (lower_case n) as [|c0 w]; [done|].
    apply token_at_word; [by apply Forall_is_word|done].
  - intros _. destruct (N.eqb c (ord "d")).
    + apply (token_at_word (ord "n") (lit "umber")); [|done].
      repeat constructor; by apply is_word_ascii.
    + apply (token_at_word (ord "i") (lit "tem")); [|done].
      repeat constructor; by apply is_word_ascii.
Qed.

Lemma PlainName_intro n :
  match lower n with
  | [] => false
  | c :: w => forallb is_word (c :: w) && plain_tail w
  end = true ->
  PlainName (Some n).
Proof.
  cbn [PlainName]. rewrite lower_case_lower.
  destruct (lower n) as [|c w]; [done|].
  intros [Hw Hp]%andb_true_iff. split_and!; [done| |done].
  apply Forall_is_word, Forall_forall. intros x Hx.
  rewrite forallb_forall in Hw. apply Hw.
  by apply list_elem_of_In.
Qed.

(** For an ASCII name the lower case changes neither the word
    characters nor the underscores. *)
Lemma ascii_lower_underscore c :
  N.eqb (ascii_lower c) (ord "_") = N.eqb c (ord "_").
Proof.
  unfold ascii_lower. destruct (in_range 65 90 c) eqn:E; [|done].
  apply andb_true_iff in E as [H1%N.leb_le H2%N.leb_le].
  change (ord "_") with 95%N.
  destruct (N.eqb_spec (c + 32) 95), (N.eqb_spec c 95); (done || lia).
Qed.

Lemma ascii_lower_alnum c :
  ascii_alnum c = true -> ascii_alnum (ascii_lower c) = true.
Proof.
  unfold ascii_lower. destruct (in_range 65 90 c) eqn:E; [|done]. intros _.
  apply andb_true_iff in E as [H1%N.leb_le H2%N.leb_le].
  unfold ascii_alnum, in_range.
  rewrite !orb_true_iff, !andb_true_iff, !N.leb_le. lia.
Qed.

Lemma ascii_lower_is_ascii c :
  is_ascii c = true -> is_ascii (ascii_lower c) = true.
Proof.
  unfold ascii_lower. destruct (in_range 65 90 c) eqn:E; [|done]. intros _.
  apply andb_true_iff in E as [H1%N.leb_le H2%N.leb_le].
  apply N.ltb_lt. lia.
Qed.

Lemma ascii_lower_word c :
  is_ascii c = true -> is_word c = true -> is_word (ascii_lower c) = true.
Proof.
  unfold is_word. intros Hc.
  rewrite !is_alnum_ascii, ascii_lower_underscore
    by (done || by apply ascii_lower_is_ascii).
  intros [H|H]%orb_true_iff; [|by rewrite H, orb_true_r].
  by rewrite ascii_lower_alnum.
Qed.

Lemma plain_tail_ascii_lower n :
  plain_tail (ascii_lower <$> n) = plain_tail n.
Proof.
  induction n as [|c n IH]; [done|]. rewrite fmap_cons.
  cbn [plain_tail]. rewrite IH, ascii_lower_underscore.
  destruct n as [|d n]; [done|]. rewrite fmap_cons.
  by rewrite ascii_lower_underscore.
Qed.

Lemma PlainName_ascii n :
  forallb is_ascii n = true ->
  n <> [] -> Forall Word n -> plain_tail (tail n) = true ->
  PlainName (Some n).
Proof.
  intros Ha Hne Hw Hp. cbn [PlainName].
  rewrite lower_case_lower, lower_ascii by done.
  destruct n as [|c n]; [done|]. split_and!; [done| |].
  - apply Forall_is_word in Hw. apply Forall_is_word.
    rewrite forallb_forall in Ha. apply Forall_fmap, Forall_forall.
    intros x Hx. apply ascii_lower_word.
    + apply Ha. by apply list_elem_of_In.
    + by eapply Forall_forall in Hw.
  - rewrite fmap_cons. cbn [tail]. by rewrite plain_tail_ascii_lower.
Qed.

Lemma Tidy_spaces ws u :
  Forall (λ c, is_space c = true) ws -> Tidy (ws ++ u) -> Tidy u.
Proof.
  induction 1 as [|c ws Hc Hws IH]; [done|]. cbn [app]. intros H.
  apply IH. inversion H as [|? ? ? ? E|]; subst; [|done].
  apply placeholder_at_Placeholder in E.
  by rewrite placeholder_at_percent in E by by apply is_space_not_percent.
Qed.

Lemma Tidy_hit s name c rest :
  Tidy s -> placeholder_at s = Some (name, c, rest) ->
  PlainName name /\ Tidy rest.
Proof.
  intros H E.
  inversion H as [|s0 name0 c0 rest0 E' Hp Ht|ch s0 E' Hne Ht]; subst.
  - discriminate E.
  - apply placeholder_at_Placeholder in E'.
    assert (Heq : (name0, c0, rest0) = (name, c, rest)) by congruence.
    by injection Heq as -> -> ->.
  - by apply placeholder_at_Placeholder, E' in E.
Qed.

Lemma Tidy_copy_inv ch s :
  Tidy (ch :: s) -> placeholder_at (ch :: s) = None ->
  token_at (ch :: humanize_placeholders s) = None /\ Tidy s.
Proof.
  intros H E.
  inversion H as [|s0 name0 c0 rest0 E' Hp Ht|ch0 s0 E' Hne Ht]; subst.
  - apply placeholder_at_Placeholder in E'. congruence.
  - split; [|done]. apply token_at_None. intros tok rest.
    apply Hne, humanized_humanize.
Qed.

(** [Tidy], from what the functions compute. *)
Lemma Tidy_placeholder_at s name c rest :
  placeholder_at s = Some (name, c, rest) ->
  PlainName name -> Tidy rest -> Tidy s.
Proof.
  intros E. eapply Tidy_placeholder. by apply placeholder_at_Placeholder.
Qed.

Lemma Tidy_copy_at ch s :
  placeholder_at (ch :: s) = None ->
  token_at (ch :: humanize_placeholders s) = None ->
  Tidy s -> Tidy (ch :: s).
Proof.
  intros E Ht. apply Tidy_copy; [by apply placeholder_at_None|].
  intros out tok rest ->%Humanized_humanize. by apply token_at_None.
Qed.

Lemma token_at_not_underscore d t :
  N.eqb d (ord "_") = false -> token_at (d :: t) = None.
Proof.
  intros H. unfold token_at. destruct t as [|b [|c t]]; try done.
  by rewrite H.
Qed.

Lemma no_space_head_token name c u : no_space_head (token_of name c ++ u).
Proof. by destruct (token_of_head name c) as [t ->]. Qed.

(** On a tidy [msgid] the scan of the humanized text meets the tokens
    where the scan of [msgid] met the placeholders. *)
Lemma restore_humanized s :
  Tidy s ->
  sub_pop (scan 3 token_re (humanize_placeholders s) 0)
          (findall3 spaced_placeholder_re s) = inr s.
Proof.
  remember (length s) as n eqn:Hn. revert s Hn.
  induction n as [n IH] using lt_wf_ind. intros s -> Ht.
  destruct s as [|c s1]; [reflexivity|].
  pose proof (span_app is_space (c :: s1)) as Hs.
  pose proof (span_Forall is_space (c :: s1)) as Hws.
  pose proof (span_stop is_space (c :: s1)) as Hstop.
  pose proof (match_at_spaced (c :: s1)) as Hm.
  destruct (span is_space (c :: s1)) as [ws s'] eqn:Esp.
  cbn [fst snd] in *.
  assert (Ht' : Tidy s') by (apply (Tidy_spaces ws); [done|by rewrite Hs]).
  destruct (placeholder_at s') as [[[name cv] rest]|] eqn:E.
  - pose proof (span_app is_space rest) as Hr.
    pose proof (span_Forall is_space rest) as Hws2.
    pose proof (span_stop is_space rest) as Hstop2.
    destruct (span is_space rest) as [ws2 rest2] eqn:Esp2.
    cbn [fst snd] in *.
    destruct (Tidy_hit _ _ _ _ Ht' E) as [Hplain Htr].
    assert (Ht2 : Tidy rest2)
      by (apply (Tidy_spaces ws2); [done|by rewrite Hr]).
    pose proof (placeholder_at_Some _ _ _ _ E) as (Hs' & Hsd & Hname).
    assert (Hlen : length rest2 < length (c :: s1)).
    { rewrite <- Hs, Hs', <- Hr, !length_app.
      pose proof (placeholder_text_nonempty name cv).
      destruct (placeholder_text name cv); [done|]. simpl. lia. }
    rewrite (findall3_hit _ _ _ _ Hm).
    2:{ simpl. pose proof (placeholder_text_nonempty name cv).
        destruct ws, (placeholder_text name cv); done. }
    cbn [group m_groups lookup list_lookup default m_text].
    assert (Hh : humanize_placeholders (c :: s1)
                 = ws ++ token_of name cv ++ ws2
                   ++ humanize_placeholders rest2).
    { rewrite <- Hs, humanize_spaces by done.
      rewrite (humanize_hit _ _ _ _ E), <- Hr.
      by rewrite humanize_spaces by done. }
    rewrite Hh.
    pose proof (match_at_token
                  (ws ++ token_of name cv ++ ws2
                   ++ humanize_placeholders rest2)) as Hk.
    rewrite (span_intro is_space ws) in Hk
      by (done || apply no_space_head_token).
    cbn [fst snd] in Hk.
    rewrite token_at_token_of in Hk by done.
    rewrite (span_intro is_space ws2) in Hk
      by (done || by apply humanize_no_space_head).
    cbn [fst snd] in Hk.
    rewrite (scan_hit _ _ _ _ _ Hk).
    2:{ cbn [m_text]. rewrite !app_assoc, take_app_suffix.
        destruct (token_of_head name cv) as [t ->]. by destruct ws. }
    cbn [sub_pop pop_placeholder].
    rewrite (IH _ Hlen _ eq_refl Ht2).
    f_equal. rewrite <- Hs, Hs', <- Hr. by rewrite <- !app_assoc.
  - rewrite (findall3_miss _ _ _ Hm).
    assert (Ec : placeholder_at (c :: s1) = None).
    { destruct ws as [|w ws].
      - simpl in Hs. by rewrite <- Hs.
      - injection Hs as -> _. apply Forall_cons in Hws as [Hw _].
        by apply placeholder_at_percent, is_space_not_percent. }
    destruct (Tidy_copy_inv _ _ Ht Ec) as [Hc Ht1].
    assert (Hnone : token_at (humanize_placeholders s') = None).
    { destruct s' as [|d s'']; [done|].
      rewrite humanize_copy by done.
      by destruct (Tidy_copy_inv _ _ Ht' E). }
    pose proof (match_at_token (humanize_placeholders (c :: s1))) as Hk.
    rewrite <- Hs, humanize_spaces in Hk by done.
    rewrite (span_intro is_space ws) in Hk
      by (done || by apply humanize_no_space_head).
    cbn [fst snd] in Hk. rewrite Hnone in Hk.
    rewrite <- humanize_spaces, Hs, humanize_copy in Hk by done.
    rewrite humanize_copy by done.
    rewrite (scan_miss _ _ _ _ Hk). cbn [sub_pop].
    rewrite (IH (length s1)); [done|simpl; lia|done|done].
Qed.

(** [humanize_placeholders] keeps the newline at either end. *)
Lemma Humanized_startswith_nl s out :
  Humanized s out -> startswith_nl out = startswith_nl s.
Proof.
  destruct 1 as [|s name c rest out E H|ch s out E H]; [done| |done].
  apply placeholder_at_Placeholder, placeholder_at_Some in E as (-> & _ & _).
  destruct (token_of_head name c) as [t ->]. by destruct name.
Qed.

Lemma Humanized_nil_iff s out : Humanized s out -> (out = [] <-> s = []).
Proof.
  destruct 1 as [|s name c rest out E H|ch s out E H]; [done| |done].
  destruct (token_of_head name c) as [t ->].
  split; [done|]. intros ->. inversion E.
Qed.

Lemma endswith_nl_placeholder name c :
  is_sd c = true -> endswith_nl (placeholder_text name c) = false.
Proof.
  intros Hc. unfold endswith_nl, placeholder_text. destruct name as [n|].
  - replace (lit "%(" ++ n ++ lit ")" ++ [c])
      with ((lit "%(" ++ n ++ lit ")") ++ [c]) by (by rewrite <- !app_assoc).
    rewrite last_snoc. by apply is_sd_not_newline.
  - by apply is_sd_not_newline.
Qed.

Lemma endswith_nl_token name c : endswith_nl (token_of name c) = false.
Proof.
  unfold endswith_nl, token_of. destruct name as [n|].
  - replace (lit "__" ++ lower_case n ++ lit "__")
      with ((lit "__" ++ lower_case n ++ [ord "_"]) ++ [ord "_"])
      by (by rewrite <- !app_assoc).
    by rewrite last_snoc.
  - by destruct (N.eqb c (ord "d")).
Qed.

Lemma Humanized_endswith_nl s out :
  Humanized s out -> endswith_nl out = endswith_nl s.
Proof.
  induction 1 as [|s name c rest out E H IH|ch s out E H IH]; [done| |].
  - pose proof (Humanized_nil_iff _ _ H) as Hnil.
    apply placeholder_at_Placeholder, placeholder_at_Some
      in E as (-> & Hsd & _).
    destruct rest as [|r rest].
    + assert (out = []) as -> by by apply Hnil.
      rewrite !app_nil_r.
      by rewrite endswith_nl_placeholder, endswith_nl_token.
    + assert (out <> []) by (intros ?; by apply Hnil in H0).
      by rewrite !endswith_nl_app.
  - pose proof (Humanized_nil_iff _ _ H) as Hnil.
    destruct s as [|r s].
    + by assert (out = []) as -> by by apply Hnil.
    + assert (out <> []) by (intros ?; by apply Hnil in H0).
      change (ch :: out) with ([ch] ++ out).
      change (ch :: r :: s) with ([ch] ++ r :: s).
      by rewrite !endswith_nl_app.
Qed.

Lemma fix_newlines_humanized s :
  fix_newlines s (humanize_placeholders s) = humanize_placeholders s.
Proof.
  pose proof (humanized_humanize s) as H.
  unfold fix_newlines.
  rewrite (Humanized_startswith_nl _ _ H), andb_negb_r.
  by rewrite (Humanized_endswith_nl _ _ H), andb_negb_r.
Qed.


Lemma sub_pop_raises items ps x : sub_pop items ps = inl x -> x = IndexError.
Proof.
  revert ps. induction items as [|[c|m] items IH]; intros ps; simpl.
  - discriminate.
  - destruct (sub_pop items ps) eqn:E; [|discriminate].
    intros [= <-]. eauto.
  - destruct ps as [|[[ws1 ph] ws2] ps]; simpl; [congruence|].
    destruct (sub_pop items ps) eqn:E; [|discriminate].
    intros [= <-]. eauto.
Qed.

Lemma fix_translation_raises msgid t x :
  fix_translation msgid t = inl x -> x = IndexError.
Proof. apply sub_pop_raises. Qed.

Lemma update_entry_outcome self e ts e' r :
  update_entry self e ts = (e', r) ->
  let n := if truthy (msgid_plural e) then 2 else 1 in
  match r with
  | inr rest => rest = drop n ts /\ n <= length ts
  | inl StopIteration => length ts < n
  | inl IndexError => True
  end.
Proof.
  unfold update_entry. intros H.
  destruct (truthy (msgid_plural e)).
  - destruct ts as [|t1 ts]; simpl in H.
    { inversion H; subst; simpl; lia. }
    destruct (fix_translation (msgid e) t1) as [x|f1] eqn:E1; simpl in H.
    { apply fix_translation_raises in E1 as ->. by inversion H. }
    destruct ts as [|t2 ts]; simpl in H.
    { inversion H; subst; simpl; lia. }
    destruct (fix_translation (msgid_plural e) t2) as [x|f2] eqn:E2; simpl in H.
    { apply fix_translation_raises in E2 as ->. by inversion H. }
    inversion H; subst; simpl. split; [done|lia].
  - destruct ts as [|t1 ts]; simpl in H.
    { inversion H; subst; simpl; lia. }
    destruct (fix_translation (msgid e) t1) as [x|f1] eqn:E1; simpl in H.
    { apply fix_translation_raises in E1 as ->. by inversion H. }
    inversion H; subst; simpl. split; [done|lia].
Qed.

Lemma get_strings_length translated self po :
  length (get_strings_to_translate translated self po)
  = sum_list (slots translated self <$> po).
Proof.
  induction po as [|e po IH]; simpl; [done|].
  unfold slots at 1.
  destruct (need_translate translated self e); simpl; [|done].
  destruct (truthy (msgid_plural e)); simpl; by rewrite IH.
Qed.


(** What is consumed by [update_translations], against what was extracted. *)
Lemma update_translations_outcome translated self po ts done r :
  update_translations translated self po ts = (done, r) ->
  let n := length (get_strings_to_translate translated self po) in
  match r with
  | inr rest => rest = drop n ts /\ n <= length ts
  | inl StopIteration => length ts < n
  | inl IndexError => True
  end.
Proof.
  revert ts done r. induction po as [|e po IH]; intros ts done r; simpl.
  - intros [= <- <-]. by rewrite drop_0; split; [|lia].
  - destruct (need_translate translated self e); simpl.
    + destruct (update_entry self e ts) as [e' [x|ts1]] eqn:E.
      * intros [= <- <-]. apply update_entry_outcome in E.
        destruct x; [|done]. simpl in E.
        destruct (truthy (msgid_plural e)); simpl; lia.
      * destruct (update_translations translated self po ts1) as [d r1] eqn:E1.
        intros [= <- <-]. apply IH in E1. apply update_entry_outcome in E.
        simpl in E. destruct E as [-> Hn].
        set (k := if truthy (msgid_plural e) then 2 else 1) in *.
        assert (Hk : length
                       ([humanize_placeholders (msgid e)]
                        ++ (if truthy (msgid_plural e)
                            then [humanize_placeholders (msgid_plural e)]
                            else [])
                        ++ get_strings_to_translate translated self po)
                     = k + length (get_strings_to_translate translated
                                     self po)).
        { unfold k. destruct (truthy (msgid_plural e)); simpl; done. }
        simpl in Hk. simpl. rewrite Hk.
        destruct r1 as [[]|rest]; simpl in *; try done.
        -- rewrite length_drop in E1. lia.
        -- rewrite length_drop in E1. destruct E1 as [-> ?].
           rewrite drop_drop. split; [done|lia].
    + destruct (update_translations translated self po ts) as [d r1] eqn:E1.
      intros [= <- <-]. by apply IH in E1.
Qed.

Lemma update_translations_length translated self po ts :
  length (update_translations translated self po ts).1 = length po.
Proof.
  revert ts. induction po as [|e po IH]; intros ts; simpl; [done|].
  destruct (need_translate translated self e); simpl.
  - destruct (update_entry self e ts) as [e' [x|ts1]]; simpl; [done|].
    specialize (IH ts1).
    destruct (update_translations translated self po ts1); simpl in *.
    by rewrite IH.
  - specialize (IH ts).
    destruct (update_translations translated self po ts); simpl in *.
    by rewrite IH.
Qed.

Lemma update_translations_app translated self po1 po2 ts :
  update_translations translated self (po1 ++ po2) ts
  = match update_translations translated self po1 ts with
    | (d1, inl x) => (d1 ++ po2, inl x)
    | (d1, inr ts1) =>
        let '(d2, r) := update_translations translated self po2 ts1 in
        (d1 ++ d2, r)
    end.
Proof.
  revert ts. induction po1 as [|e po1 IH]; intros ts; simpl.
  - by destruct (update_translations translated self po2 ts).
  - destruct (need_translate translated self e); simpl.
    + destruct (update_entry self e ts) as [e' [x|ts1]]; [done|].
      rewrite IH.
      destruct (update_translations translated self po1 ts1) as [d1 [x|ts2]];
        [done|].
      by destruct (update_translations translated self po2 ts2).
    + rewrite IH.
      destruct (update_translations translated self po1 ts) as [d1 [x|ts2]];
        [done|].
      by destruct (update_translations translated self po2 ts2).
Qed.

Lemma get_strings_app translated self po1 po2 :
  get_strings_to_translate translated self (po1 ++ po2)
  = get_strings_to_translate translated self po1
    ++ get_strings_to_translate translated self po2.
Proof.
  induction po1 as [|e po1 IH]; simpl; [done|].
  destruct (need_translate translated self e); simpl; [|done].
  by rewrite IH, <- app_assoc.
Qed.

(** An entry reached by [update_translations] is handed the iterator at
    the offset of its own strings in the extracted list. *)
Lemma update_translations_middle translated self po1 e po2 ts :
  match update_translations translated self po1 ts with
  | (d1, inl x) =>
      update_translations translated self (po1 ++ e :: po2) ts
      = (d1 ++ e :: po2, inl x)
  | (d1, inr ts1) =>
      ts1 = drop (length (get_strings_to_translate translated self po1)) ts
      /\ (update_translations translated self (po1 ++ e :: po2) ts).1
           !! length po1
         = Some (if need_translate translated self e
                 then (update_entry self e ts1).1 else e)
  end.
Proof.
  rewrite update_translations_app.
  destruct (update_translations translated self po1 ts)
    as [d1 [x|ts1]] eqn:E1; [done|].
  pose proof (update_translations_length translated self po1 ts) as Hd.
  rewrite E1 in Hd. simpl in Hd.
  apply update_translations_outcome in E1 as [-> _]. split; [done|].
  simpl.
  destruct (need_translate translated self e); simpl.
  - destruct (update_entry self e _) as [e' [x|ts2]]; simpl.
    + rewrite lookup_app_r by lia. by rewrite Hd, Nat.sub_diag.
    + destruct (update_translations translated self po2 ts2).
      simpl. rewrite lookup_app_r by lia. by rewrite Hd, Nat.sub_diag.
  - destruct (update_translations translated self po2 _).
    simpl. rewrite lookup_app_r by lia. by rewrite Hd, Nat.sub_diag.
Qed.

Lemma update_translations_at translated self po ts i e :
  po !! i = Some e ->
  match update_translations translated self (take i po) ts with
  | (d1, inl x) =>
      update_translations translated self po ts = (d1 ++ drop i po, inl x)
  | (d1, inr ts1) =>
      ts1 = drop (length (get_strings_to_translate translated self
                            (take i po))) ts
      /\ (update_translations translated self po ts).1 !! i
         = Some (if need_translate translated self e
                 then (update_entry self e ts1).1 else e)
  end.
Proof.
  intros Hi.
  pose proof (update_translations_middle translated self (take i po) e
                (drop (S i) po) ts) as H.
  rewrite (take_drop_middle _ _ _ Hi) in H.
  rewrite (drop_S _ _ _ Hi).
  rewrite length_take_le in H by (apply lookup_lt_Some in Hi; lia).
  done.
Qed.

Lemma update_translations_skip translated self po ts i e :
  po !! i = Some e ->
  need_translate translated self e = false ->
  update_translations translated self (delete i po) ts
  = (delete i (update_translations translated self po ts).1,
     (update_translations translated self po ts).2)
  /\ (update_translations translated self po ts).1 !! i = Some e.
Proof.
  revert i ts. induction po as [|e0 po IH]; intros i ts Hi Hn; [done|].
  destruct i as [|i]; simpl in Hi.
  - injection Hi as ->. simpl. rewrite Hn. simpl.
    by destruct (update_translations translated self po ts).
  - simpl. destruct (need_translate translated self e0); simpl.
    + destruct (update_entry self e0 ts) as [e' [x|ts1]]; simpl.
      * done.
      * destruct (IH i ts1 Hi Hn) as [-> H2].
        destruct (update_translations translated self po ts1); done.
    + destruct (IH i ts Hi Hn) as [-> H2].
      destruct (update_translations translated self po ts); done.
Qed.

Lemma update_translations_done translated self po ts done rest i e :
  update_translations translated self po ts = (done, inr rest) ->
  po !! i = Some e ->
  let ts1 := drop (sum_list (slots translated self <$> take i po)) ts in
  if need_translate translated self e
  then exists e' ts2,
         update_entry self e ts1 = (e', inr ts2) /\ done !! i = Some e'
  else done !! i = Some e.
Proof.
  intros Hdone Hi. simpl.
  rewrite <- get_strings_length.
  pose proof (take_drop_middle _ _ _ Hi) as Hpo.
  pose proof (update_translations_length translated self (take i po) ts) as Hd.
  rewrite length_take_le in Hd by (apply lookup_lt_Some in Hi; lia).
  rewrite <- Hpo, update_translations_app in Hdone.
  destruct (update_translations translated self (take i po) ts)
    as [d1 [x|ts1]] eqn:E1; [done|].
  apply update_translations_outcome in E1 as [<- _].
  simpl in Hdone, Hd.
  destruct (need_translate translated self e); simpl in Hdone.
  - destruct (update_entry self e ts1) as [e' [x|ts2]]; [done|].
    exists e', ts2. split; [done|].
    destruct (update_translations translated self (drop (S i) po) ts2).
    injection Hdone as <- _.
    rewrite lookup_app_r by lia. by rewrite Hd, Nat.sub_diag.
  - destruct (update_translations translated self (drop (S i) po) ts1).
    injection Hdone as <- _.
    rewrite lookup_app_r by lia. by rewrite Hd, Nat.sub_diag.
Qed.

Lemma mark_fuzzy_flags self e :
  flags (mark_fuzzy self e)
  = if set_fuzzy self && negb (bool_decide (fuzzy ∈ flags e))
    then flags e ++ [fuzzy] else flags e.
Proof. unfold mark_fuzzy. by destruct (_ && _). Qed.

Lemma update_entry_flags self e ts e' r :
  update_entry self e ts = (e', r) ->
  flags e' = match r with
             | inr _ => flags (mark_fuzzy self e)
             | inl _ => flags e
             end.
Proof.
  unfold update_entry.
  repeat match goal with
         | |- context [match ?x with _ => _ end] => destruct x; simpl
         end;
    intros [= <- <-]; try done; by rewrite !mark_fuzzy_flags.
Qed.

Lemma update_translations_flags translated self po ts :
  (forall e, e ∈ po -> need_translate translated self e = true ->
             fuzzy ∈ flags e) ->
  flags <$> (update_translations translated self po ts).1 = flags <$> po.
Proof.
  revert ts. induction po as [|e po IH]; intros ts Hall; [done|]. simpl.
  assert (Hpo : forall e0, e0 ∈ po ->
            need_translate translated self e0 = true -> fuzzy ∈ flags e0).
  { intros e0 He0. apply Hall. by right. }
  destruct (need_translate translated self e) eqn:Hn; simpl.
  - destruct (update_entry self e ts) as [e' r] eqn:E.
    apply update_entry_flags in E.
    assert (He' : flags e' = flags e).
    { destruct r; [done|]. rewrite E, mark_fuzzy_flags.
      rewrite bool_decide_eq_true_2 by (apply Hall; [by left|done]).
      by rewrite andb_false_r. }
    destruct r as [x|ts1]; csimpl; [by rewrite He'|].
    specialize (IH ts1 Hpo).
    destruct (update_translations translated self po ts1). csimpl in *.
    by rewrite He', IH.
  - specialize (IH ts Hpo).
    destruct (update_translations translated self po ts). csimpl in *.
    by rewrite IH.
Qed.

Lemma fill_plurals_lookup t m k :
  fill_plurals t m !! k
  = (λ v, if bool_decide (k ≠ 0%Z) then t else v) <$> m !! k.
Proof. unfold fill_plurals. rewrite map_lookup_imap. by destruct (m !! k). Qed.

Lemma mark_fuzzy_fields self e :
  msgstr (mark_fuzzy self e) = msgstr e
  /\ msgstr_plural (mark_fuzzy self e) = msgstr_plural e.
Proof. unfold mark_fuzzy. by destruct (_ && _). Qed.


End Facts.

(** [Tidy] on a given text. *)
Ltac tidy_text :=
  repeat first
    [ apply Tidy_nil
    | eapply Tidy_placeholder_at;
        [vm_compute; reflexivity
        |first [exact I | apply PlainName_intro; vm_compute; reflexivity]|]
    | apply Tidy_copy_at; [reflexivity|vm_compute; reflexivity|] ].

(** * The claims *)

(** ** Selection of entries *)

(** What [need_translate] computes: an entry is left out only when the
    untranslated-only mode is on and the entry is both translated and
    obsolete. *)
Lemma need_translate_formula translated self entry :
  need_translate translated self entry
  = negb (skip_translated self && translated entry && obsolete entry).
Proof.
  unfold need_translate.
  by destruct (skip_translated self), (translated entry), (obsolete entry).
Qed.

(** C1: in untranslated-only mode an entry that is translated and not
    obsolete should be left out; [need_translate] selects it, because its
    last disjunct is [not entry.obsolete]. *)
Theorem need_translate_translated_entry :
  need_translate has_msgstr (sample_command true false)
    (sample_entry "Hello" "" "Bonjour" [] false) = true.
Proof. reflexivity. Qed.

(** ** Length of the returned list *)

(** C2, as stated, fails, whatever the character database: with one
    string extracted and two translations returned,
    [update_translations] ends normally and leaves the second
    translation in the iterator. *)
Lemma surplus_translations_ignored :
  ~ (exists U : Unicode,
       forall translated self po ts,
         length ts <> length (get_strings_to_translate translated self po) ->
         exists done e,
           update_translations translated self po ts = (done, inl e)).
Proof.
  intros [U H].
  destruct (H has_msgstr (sample_command false false)
              [sample_entry "Hello" "" "" [] false]
              [lit "Bonjour"; lit "Salut"])
    as (done & e & He).
  - vm_compute. lia.
  - vm_compute in He. discriminate.
Qed.

(** C2, amended: a list shorter than the extracted one makes
    [update_translations] raise ([StopIteration] when the iterator runs
    dry, unless a restoration raised [IndexError] before that); a longer
    list raises nothing on account of its length, and the translations
    past the extracted count stay in the iterator. *)
Theorem length_mismatch {U : Unicode} translated self po ts done r :
  update_translations translated self po ts = (done, r) ->
  let n := length (get_strings_to_translate translated self po) in
  (length ts < n -> r = inl StopIteration \/ r = inl IndexError)
  /\ (n < length ts ->
      r = inl IndexError \/ (r = inr (drop n ts) /\ drop n ts <> [])).
Proof.
  intros E n. apply update_translations_outcome in E. fold n in E.
  split; intros Hlen.
  - destruct r as [[]|rest]; [by left|by right|]. lia.
  - destruct r as [[]|rest]; [lia|by left|]. right.
    destruct E as [-> _]. split; [done|].
    intros Hnil. apply (f_equal length) in Hnil.
    rewrite length_drop in Hnil. simpl in Hnil. lia.
Qed.

Lemma length_mismatch_witness :
  let ts := [lit "Bonjour"; lit "Salut"] in
  let r : exn + list str := inr [lit "Salut"] in
  (length ts < 1 -> r = inl StopIteration \/ r = inl IndexError)
  /\ (1 < length ts ->
      r = inl IndexError \/ (r = inr (drop 1 ts) /\ drop 1 ts <> [])).
Proof.
  exact (length_mismatch (U := ascii_tables)
      has_msgstr (sample_command false false)
           [sample_entry "Hello" "" "" [] false]
           [lit "Bonjour"; lit "Salut"]
           [sample_entry "Hello" "" "Bonjour" [] false]
           (inr [lit "Salut"]) eq_refl).
Defined.

Example short_list_raises {U : Unicode} :
  update_translations has_msgstr (sample_command false false)
    sample_catalog [lit "Bonjour"; lit "__number__ article"]
  = ([ sample_entry "Hello" "" "Bonjour" [] false;
       set_msgstr_plural
         (<[0%Z := lit "%d article"]> (<[1%Z := []]> (<[2%Z := []]> ∅)))
         (sample_entry "%d item" "%d items" "" [] false);
       sample_entry "Bye" "" "Au revoir" [] true ],
     inl StopIteration).
Proof. vm_compute. reflexivity. Qed.

(** ** The round trip *)

(** C3, as stated, fails, whatever the character database: a [msgid]
    with no placeholder but with text that reads as a token makes the
    restoration raise [IndexError]. *)
Lemma round_trip_breaks_on_literal_token :
  ~ (exists U : Unicode,
       forall msgid,
         fix_translation msgid (humanize_placeholders msgid) = inr msgid).
Proof.
  intros [U H]. specialize (H (lit "Call __init__ first")).
  vm_compute in H. discriminate.
Qed.

(** Underscores next to a placeholder, or at the end of its name, are
    lost or doubled. *)
Example round_trip_underscores {U : Unicode} :
  fix_translation (lit "_%s") (humanize_placeholders (lit "_%s"))
    = inr (lit "%s")
  /\ fix_translation (lit "%(a_)s") (humanize_placeholders (lit "%(a_)s"))
     = inr (lit "%(a_)s_").
Proof. split; vm_compute; reflexivity. Qed.

(** An underscore outside the placeholders that starts no token does no
    harm. *)
Example round_trip_plain_underscore {U : Unicode} :
  Tidy (lit "user_name: %s")
  /\ fix_translation (lit "user_name: %s")
       (humanize_placeholders (lit "user_name: %s"))
     = inr (lit "user_name: %s").
Proof. split; [tidy_text|vm_compute; reflexivity]. Qed.

(** A name whose lower case is no longer made of word characters is not
    restored: [U+0130] becomes [i] and the combining dot [U+0307], which
    is no letter or digit. *)
Example round_trip_beyond_ascii {U : Unicode} :
  isalnum_beyond 0x130 = true ->
  lower_beyond [0x130%N] = [0x69%N; 0x307%N] ->
  isalnum_beyond 0x307 = false ->
  fix_translation (lit "%(" ++ [0x130%N] ++ lit ")s")
    (humanize_placeholders (lit "%(" ++ [0x130%N] ++ lit ")s"))
  = inr (lit "__i" ++ [0x307%N] ++ lit "__").
Proof.
  intros H1 H2 H3.
  assert (Hh : humanize_placeholders (lit "%(" ++ [0x130%N] ++ lit ")s")
               = lit "__i" ++ [0x307%N] ++ lit "__").
  { destruct U as [alnum low]. cbn in H1, H2, H3.
    vm_compute. rewrite H1, H2. reflexivity. }
  rewrite Hh. clear Hh.
  destruct U as [alnum low]. cbn in H1, H2, H3.
  vm_compute. rewrite H3. reflexivity.
Qed.

(** C3, amended: when every placeholder name of [msgid], once in lower
    case, still is one or more word characters with, past the first, no
    two underscores in a row and no underscore at the end, and no
    character of [msgid] outside its placeholders starts a token in the
    humanized text, [fix_translation] applied to [msgid] and its
    humanized text gives [msgid] back.  For an ASCII name the lower case
    keeps the word characters and the underscores, so that only the
    condition on the underscores is left ([PlainName_ascii]). *)
Theorem round_trip {U : Unicode} msgid :
  Tidy msgid ->
  fix_translation msgid (humanize_placeholders msgid) = inr msgid.
Proof.
  intros Ht. unfold fix_translation, restore_placeholders.
  rewrite fix_newlines_humanized. by apply restore_humanized.
Qed.

Lemma round_trip_witness :
  let msgid :=
    nl :: lit "Hello %(User_name)s, in file_a you have  %d %s" ++ [nl] in
  Tidy (U := ascii_tables) msgid
  /\ fix_translation (U := ascii_tables)
      msgid (humanize_placeholders (U := ascii_tables) msgid) = inr msgid.
Proof.
  assert (Ht : Tidy (U := ascii_tables)
                 (nl :: lit "Hello %(User_name)s, in file_a you have  %d %s"
                  ++ [nl])) by tidy_text.
  split; [exact Ht|]. exact (round_trip _ Ht).
Defined.

(** ** The count and order of the two passes *)




(** ** Plural entries *)

(** C5: when [update_translations] reaches a selected entry with a
    plural, the next translation, fixed against [msgid], goes to plural
    form 0, and the one after it, fixed against [msgid_plural], to every
    other plural form the entry has. *)
Theorem plural_entry_slots {U : Unicode}
    translated self po ts i e done1 t1 t2 ts' f1 f2 :
  po !! i = Some e ->
  need_translate translated self e = true ->
  truthy (msgid_plural e) = true ->
  update_translations translated self (take i po) ts
    = (done1, inr (t1 :: t2 :: ts')) ->
  fix_translation (msgid e) t1 = inr f1 ->
  fix_translation (msgid_plural e) t2 = inr f2 ->
  exists e',
    (update_translations translated self po ts).1 !! i = Some e'
    /\ msgstr_plural e' !! 0%Z = Some f1
    /\ (forall k, k ≠ 0%Z ->
          msgstr_plural e' !! k = (λ _, f2) <$> msgstr_plural e !! k)
    /\ msgstr e' = msgstr e.
Proof.
  intros Hi Hn Hp E1 Hf1 Hf2.
  pose proof (update_translations_at translated self po ts i e Hi) as H.
  rewrite E1, Hn in H. destruct H as [_ H].
  eexists. split; [exact H|].
  unfold update_entry. rewrite Hp. simpl. rewrite Hf1. simpl. rewrite Hf2.
  simpl. destruct (mark_fuzzy_fields self
    (set_msgstr_plural (fill_plurals f2 (<[0%Z:=f1]> (msgstr_plural e)))
       (set_msgstr_plural (<[0%Z:=f1]> (msgstr_plural e)) e))) as [-> ->].
  simpl. split; [|split; [|done]].
  - by rewrite fill_plurals_lookup, lookup_insert_eq.
  - intros k Hk. rewrite fill_plurals_lookup, lookup_insert_ne by done.
    by rewrite bool_decide_eq_true_2 by done.
Qed.

Lemma plural_entry_slots_witness :
  exists e',
    (update_translations (U := ascii_tables)
        has_msgstr (sample_command false false)
       [sample_entry "one" "many" "" [] false] [lit "uno"; lit "varios"]).1
      !! 0 = Some e'
    /\ msgstr_plural e' !! 0%Z = Some (lit "uno")
    /\ (forall k, k ≠ 0%Z ->
          msgstr_plural e' !! k
          = (λ _, lit "varios")
              <$> msgstr_plural (sample_entry "one" "many" "" [] false) !! k)
    /\ msgstr e' = msgstr (sample_entry "one" "many" "" [] false).
Proof.
  exact (plural_entry_slots has_msgstr (sample_command false false)
           [sample_entry "one" "many" "" [] false] [lit "uno"; lit "varios"]
           0 (sample_entry "one" "many" "" [] false) []
           (lit "uno") (lit "varios") [] (lit "uno") (lit "varios")
           eq_refl eq_refl eq_refl eq_refl eq_refl eq_refl).
Defined.

Example plural_example {U : Unicode} :
  update_translations has_msgstr (sample_command false false)
    [sample_entry "one" "many" "" [] false] [lit "uno"; lit "varios"]
  = ([ set_msgstr_plural
         (<[0%Z := lit "uno"]>
            (<[1%Z := lit "varios"]> (<[2%Z := lit "varios"]> ∅)))
         (sample_entry "one" "many" "" [] false) ], inr []).
Proof. vm_compute. reflexivity. Qed.

(** ** [humanize_placeholders] *)

(** C6: [humanize_placeholders] reads its argument left to right, puts
    [__name__] (lower-cased) for each [%(name)s] or [%(name)d],
    [__number__] for each bare [%d], [__item__] for each bare [%s], and
    keeps every other character.  [Humanized] relates a text to one
    result only ([Humanized_functional]). *)
Theorem humanize_placeholders_spec {U : Unicode} s :
  Humanized s (humanize_placeholders s).
Proof. apply humanized_humanize. Qed.

(** The description at work on its own, then the function. *)
Example humanized_example {U : Unicode} :
  Humanized (lit "%(Name)s: %d") (lit "__name__: __number__").
Proof.
  apply (Humanized_placeholder _ (Some (lit "Name")) (ord "s") (lit ": %d")
           (lit ": __number__")).
  { apply (Placeholder_named (lit "Name") (ord "s")); [done| |by left].
    repeat constructor; by left. }
  do 2 (apply Humanized_copy; [intros name c rest H; inversion H|]).
  apply (Humanized_placeholder _ None (ord "d") [] []); [|constructor].
  constructor. by right.
Qed.

Example humanize_example {U : Unicode} :
  humanize_placeholders (lit "Hello %(Name)s, you have %d items" ++ [nl])
  = lit "Hello __name__, you have __number__ items" ++ [nl].
Proof. vm_compute. reflexivity. Qed.

(** A name beyond ASCII: [U+00E9] is a letter. *)
Example humanize_beyond_ascii {U : Unicode} :
  isalnum_beyond 0xE9 = true ->
  humanize_placeholders (lit "%(" ++ [0xE9%N] ++ lit ")s: %(name)d")
  = lit "__" ++ lower_beyond [0xE9%N] ++ lit "__: __name__".
Proof.
  intros H. destruct U as [alnum low]. cbn in H.
  vm_compute. rewrite H. do 2 f_equal.
  exact (eq_sym (app_assoc (low [0xE9%N]) (lit "__") (lit ": __name__"))).
Qed.

Example humanize_example_bare {U : Unicode} :
  humanize_placeholders (lit "%s of %d, 100%")
  = lit "__item__ of __number__, 100%".
Proof. vm_compute. reflexivity. Qed.

(** ** [restore_placeholders] *)

(** C7: [restore_placeholders] records the placeholders of [msgid], each
    with the white space around it, and cuts the translation at its
    tokens, each with the white space around it; it puts, for the token
    of rank [N], the white space, placeholder and white space recorded
    at rank [N]; with no more tokens than records it returns that text
    and the records left over are dropped, with more it raises
    [IndexError]. *)
Theorem restore_placeholders_positional {U : Unicode} msgid translation :
  (exists ps segs, Records msgid ps /\ Segments translation segs)
  /\ forall ps segs,
       Records msgid ps -> Segments translation segs ->
       restore_placeholders msgid translation
       = if decide (occurrences segs <= length ps)
         then inr (replaced segs 0 ps) else inl IndexError.
Proof.
  split.
  - eexists _, _. split; [apply findall3_Records|apply scan_Segments].
  - intros ps segs ->%Records_findall3 ->%Segments_scan.
    unfold restore_placeholders.
    rewrite occurrences_hits, replaced_positional.
    rewrite <- (drop_0 (findall3 _ _)) at 1. rewrite sub_pop_positional.
    by rewrite Nat.sub_0_r.
Qed.

Lemma restore_placeholders_positional_witness :
  let msgid := lit "Dear %(name)s , %d new" in
  let translation := lit "__number__ nouveaux, cher __name__" in
  let ps := [(lit " ", lit "%(name)s", lit " ");
             (lit " ", lit "%d", lit " ")] in
  let segs :=
    Occurrence (lit "__number__ ")
    :: (Kept <$> lit "nouveaux, cher") ++ [Occurrence (lit " __name__")] in
  Records (U := ascii_tables) msgid ps /\ Segments (U := ascii_tables)
      translation segs
  /\ restore_placeholders (U := ascii_tables) msgid translation
     = inr (lit " %(name)s nouveaux, cher %d ").
Proof.
  intros msgid translation ps segs.
  assert (Hps : Records (U := ascii_tables) msgid ps)
    by (by apply Records_findall3).
  assert (Hsegs : Segments (U := ascii_tables) translation segs)
    by (by apply Segments_scan).
  split_and!; [done|done|].
  destruct (restore_placeholders_positional (U := ascii_tables)
      msgid translation) as [_ H].
  exact (H ps segs Hps Hsegs).
Defined.

(** The description at work on its own: a record of [msgid] and a token
    of the translation. *)
Example records_example {U : Unicode} :
  Records (lit "a %d") [(lit " ", lit "%d", [])].
Proof.
  apply Records_skip.
  { intros p rest H. inversion H as [ws1 s name c ws2 r Hws Hp _ _ Heq].
    destruct ws1 as [|w ws1].
    - simpl in Heq. subst s. inversion Hp.
    - injection Heq as -> _. apply Forall_cons in Hws as [Hw _].
      by apply is_space_Space in Hw. }
  eapply Records_placeholder; [|constructor].
  apply (SpacedPlaceholder_intro (lit " ") (lit "%d") None (ord "d") [] []).
  - apply Forall_is_space. by repeat constructor.
  - constructor. by right.
  - constructor.
  - done.
Qed.

Example restore_fewer_tokens {U : Unicode} :
  restore_placeholders (lit "%s and %s") (lit "__item__ seulement")
  = inr (lit "%s seulement").
Proof. vm_compute. reflexivity. Qed.

(** The four separators [\x1c] to [\x1f] are white space. *)
Example restore_separator {U : Unicode} :
  restore_placeholders (0x1F%N :: lit "%s") (lit "__item__")
  = inr (0x1F%N :: lit "%s").
Proof. vm_compute. reflexivity. Qed.

Example restore_more_tokens {U : Unicode} :
  restore_placeholders (lit "only %s") (lit "__item__ et __item__")
  = inl IndexError.
Proof. vm_compute. reflexivity. Qed.

(** ** The newline repairs *)

(** C8, as stated, fails: for a [msgid] that starts and ends with a
    newline and an empty translation, one newline is added, not two; the
    second test is made on the text the first repair produced. *)
Lemma newline_checks_are_sequential :
  ~ (forall msgid translation,
       fix_newlines msgid translation
       = (if startswith_nl msgid && negb (startswith_nl translation)
          then [nl] else [])
         ++ translation
         ++ (if endswith_nl msgid && negb (endswith_nl translation)
             then [nl] else []))
  /\ forall U : Unicode, fix_translation [nl] [] = inr [nl].
Proof.
  split; [|reflexivity].
  intros H. specialize (H [nl] []). vm_compute in H. discriminate.
Qed.

(** C8, amended: [fix_translation] puts a newline before the translation
    exactly when [msgid] starts with one and the translation does not,
    then a newline after it exactly when [msgid] ends with one and the
    text so far does not, and restores the placeholders in the result;
    the text so far ends as the translation does, except that for an
    empty translation it ends with the newline just put in front. *)
Theorem fix_translation_newlines {U : Unicode} msgid translation :
  let pre := if startswith_nl msgid && negb (startswith_nl translation)
             then [nl] else [] in
  let post := if endswith_nl msgid && negb (endswith_nl (pre ++ translation))
              then [nl] else [] in
  fix_translation msgid translation
  = restore_placeholders msgid (pre ++ translation ++ post)
  /\ endswith_nl (pre ++ translation)
     = match translation with
       | [] => startswith_nl msgid
       | _ => endswith_nl translation
       end.
Proof.
  simpl. split.
  - unfold fix_translation, fix_newlines. f_equal.
    destruct (startswith_nl msgid && negb (startswith_nl translation)); simpl.
    + destruct (endswith_nl msgid && negb (endswith_nl (nl :: translation)));
        simpl; [done|by rewrite app_nil_r].
    + destruct (endswith_nl msgid && negb (endswith_nl translation));
        simpl; [done|by rewrite app_nil_r].
  - destruct translation as [|c t].
    + rewrite app_nil_r. simpl. by destruct (startswith_nl msgid).
    + by apply endswith_nl_app.
Qed.

Example fix_example {U : Unicode} :
  fix_translation (lit "Hello %(name)s, you have %d items" ++ [nl])
                  (lit "Hola __name__, tienes __number__ articulos")
  = inr (lit "Hola %(name)s, tienes %d articulos" ++ [nl]).
Proof. vm_compute. reflexivity. Qed.

(** ** The fuzzy flag *)

(** C9: with [set_fuzzy] on, an entry whose update ran to its end carries
    [fuzzy] afterwards, appended only if it was not there; after a call
    that ended normally, a second call changes no flag list. *)
Theorem fuzzy_flag_once {U : Unicode} translated self po ts :
  set_fuzzy self = true ->
  (forall i e d1 ts1 e' ts2,
     po !! i = Some e ->
     need_translate translated self e = true ->
     update_translations translated self (take i po) ts = (d1, inr ts1) ->
     update_entry self e ts1 = (e', inr ts2) ->
     (update_translations translated self po ts).1 !! i = Some e'
     /\ fuzzy ∈ flags e'
     /\ flags e' = if bool_decide (fuzzy ∈ flags e)
                   then flags e else flags e ++ [fuzzy])
  /\ (forall done rest ts2,
        update_translations translated self po ts = (done, inr rest) ->
        flags <$> (update_translations translated self done ts2).1
        = flags <$> done).
Proof.
  intros Hf.
  assert (Hflags : forall e ts1 e' ts2,
            update_entry self e ts1 = (e', inr ts2) ->
            fuzzy ∈ flags e'
            /\ flags e' = if bool_decide (fuzzy ∈ flags e)
                          then flags e else flags e ++ [fuzzy]).
  { intros e ts1 e' ts2 He.
    apply update_entry_flags in He. rewrite mark_fuzzy_flags, Hf in He.
    rewrite He. simpl. case_bool_decide; simpl; [done|].
    split; [|done]. apply elem_of_app. right.
    by apply list_elem_of_singleton. }
  split.
  - intros i e d1 ts1 e' ts2 Hi Hn E1 He.
    pose proof (update_translations_at translated self po ts i e Hi) as H.
    rewrite E1, Hn, He in H. destruct H as [_ H].
    split; [exact H|]. by eapply Hflags.
  - intros done rest ts2 E. apply update_translations_flags.
    intros e' He' Hn'.
    apply list_elem_of_lookup in He' as [i Hi'].
    assert (Hlen : i < length po).
    { apply lookup_lt_Some in Hi'.
      pose proof (update_translations_length translated self po ts) as Hl.
      rewrite E in Hl. simpl in Hl. lia. }
    apply lookup_lt_is_Some in Hlen as [e Hi].
    pose proof (update_translations_done _ _ _ _ _ _ _ _ E Hi) as Hd.
    simpl in Hd.
    destruct (need_translate translated self e) eqn:Hn.
    + destruct Hd as (e'' & ts3 & He & Hl).
      assert (e'' = e') as -> by congruence.
      by destruct (Hflags _ _ _ _ He).
    + congruence.
Qed.

Lemma fuzzy_flag_once_witness :
  let self := sample_command true true in
  let po := [sample_entry "Hello" "" "" [] false;
             sample_entry "Bye" "" "" [fuzzy] false] in
  let ts := [lit "Bonjour"; lit "Salut"] in
  (update_translations (U := ascii_tables) has_msgstr self po ts).1
  = [sample_entry "Hello" "" "Bonjour" [fuzzy] false;
     sample_entry "Bye" "" "Salut" [fuzzy] false]
  /\ forall ts2,
       flags <$> (update_translations (U := ascii_tables) has_msgstr self
                    (update_translations (U := ascii_tables)
                        has_msgstr self po ts).1 ts2).1
       = flags <$> (update_translations (U := ascii_tables)
           has_msgstr self po ts).1.
Proof.
  intros self po ts.
  destruct (fuzzy_flag_once (U := ascii_tables)
      has_msgstr self po ts eq_refl) as [_ H].
  split; [vm_compute; reflexivity|].
  intros ts2. exact (H _ [] ts2 eq_refl).
Defined.

(** ** Entries that are not selected *)

(** C10: an entry that [need_translate] does not select is the same
    after the call, and the call goes as it would without that entry: the
    other entries end up the same and so does the outcome, so no
    translation was taken for it. *)
Theorem skipped_entry_untouched {U : Unicode} translated self po ts i e :
  po !! i = Some e ->
  need_translate translated self e = false ->
  (update_translations translated self po ts).1 !! i = Some e
  /\ update_translations translated self (delete i po) ts
     = (delete i (update_translations translated self po ts).1,
        (update_translations translated self po ts).2).
Proof.
  intros Hi Hn.
  by destruct (update_translations_skip translated self po ts i e Hi Hn).
Qed.

Lemma skipped_entry_untouched_witness :
  (update_translations (U := ascii_tables)
      has_msgstr (sample_command true false)
     sample_catalog sample_translations).1 !! 2
  = Some (sample_entry "Bye" "" "Au revoir" [] true)
  /\ update_translations (U := ascii_tables)
      has_msgstr (sample_command true false)
       (delete 2 sample_catalog) sample_translations
     = (delete 2 (update_translations (U := ascii_tables)
         has_msgstr (sample_command true false)
                    sample_catalog sample_translations).1,
        (update_translations (U := ascii_tables)
            has_msgstr (sample_command true false)
           sample_catalog sample_translations).2).
Proof.
  exact (skipped_entry_untouched has_msgstr (sample_command true false)
           sample_catalog sample_translations 2
           (sample_entry "Bye" "" "Au revoir" [] true) eq_refl eq_refl).
Defined.

(** * Further properties *)

(** ** [update_translations] *)

Lemma mark_fuzzy_sources self e :
  msgid (mark_fuzzy self e) = msgid e
  /\ msgid_plural (mark_fuzzy self e) = msgid_plural e
  /\ obsolete (mark_fuzzy self e) = obsolete e.
Proof. unfold mark_fuzzy. by destruct (_ && _). Qed.

Lemma update_entry_sources {U : Unicode} self e ts :
  msgid (update_entry self e ts).1 = msgid e
  /\ msgid_plural (update_entry self e ts).1 = msgid_plural e
  /\ obsolete (update_entry self e ts).1 = obsolete e.
Proof.
  unfold update_entry.
  repeat match goal with
         | |- context [match ?x with _ => _ end] => destruct x; simpl
         end;
    try done; by rewrite !(proj1 (mark_fuzzy_sources _ _)),
      !(proj1 (proj2 (mark_fuzzy_sources _ _))),
      !(proj2 (proj2 (mark_fuzzy_sources _ _))).
Qed.

(** X1: every entry keeps its [msgid], [msgid_plural] and [obsolete], and
    the catalog keeps its length, whether [update_translations] ends
    normally or raises. *)
Theorem update_translations_keeps_sources {U : Unicode} translated self po ts :
  let done := (update_translations translated self po ts).1 in
  length done = length po
  /\ msgid <$> done = msgid <$> po
  /\ msgid_plural <$> done = msgid_plural <$> po
  /\ obsolete <$> done = obsolete <$> po.
Proof.
  simpl. split; [apply update_translations_length|].
  revert ts. induction po as [|e po IH]; intros ts; [done|]. simpl.
  destruct (need_translate translated self e); simpl.
  - pose proof (update_entry_sources self e ts) as (H1 & H2 & H3).
    destruct (update_entry self e ts) as [e' [x|ts1]]; simpl in *.
    + csimpl. by rewrite H1, H2, H3.
    + destruct (IH ts1) as (I1 & I2 & I3).
      destruct (update_translations translated self po ts1); csimpl in *.
      by rewrite H1, H2, H3, I1, I2, I3.
  - destruct (IH ts) as (I1 & I2 & I3).
    destruct (update_translations translated self po ts); csimpl in *.
    by rewrite I1, I2, I3.
Qed.

(** X2: when [update_translations] reaches a selected entry without a
    plural, the next translation, fixed against [msgid], becomes its
    [msgstr]; [msgstr_plural] is left alone. *)
Theorem singular_entry_slot {U : Unicode}
    translated self po ts i e done1 t ts' f :
  po !! i = Some e ->
  need_translate translated self e = true ->
  truthy (msgid_plural e) = false ->
  update_translations translated self (take i po) ts
    = (done1, inr (t :: ts')) ->
  fix_translation (msgid e) t = inr f ->
  exists e',
    (update_translations translated self po ts).1 !! i = Some e'
    /\ msgstr e' = f
    /\ msgstr_plural e' = msgstr_plural e.
Proof.
  intros Hi Hn Hp E1 Hf.
  pose proof (update_translations_at translated self po ts i e Hi) as H.
  rewrite E1, Hn in H. destruct H as [_ H].
  eexists. split; [exact H|].
  unfold update_entry. rewrite Hp. simpl. rewrite Hf. simpl.
  by destruct (mark_fuzzy_fields self (set_msgstr f e)) as [-> ->].
Qed.

Lemma singular_entry_slot_witness :
  exists e',
    (update_translations (U := ascii_tables)
        has_msgstr (sample_command true false)
       sample_catalog sample_translations).1 !! 0 = Some e'
    /\ msgstr e' = lit "Bonjour"
    /\ msgstr_plural e'
       = msgstr_plural (sample_entry "Hello" "" "" [] false).
Proof.
  exact (singular_entry_slot has_msgstr (sample_command true false)
           sample_catalog sample_translations 0
           (sample_entry "Hello" "" "" [] false) []
           (lit "Bonjour")
           [lit "__number__ article"; lit "__number__ articles"]
           (lit "Bonjour") eq_refl eq_refl eq_refl eq_refl eq_refl).
Defined.

(** X3: with [set_fuzzy] off no flag list changes, whatever the outcome. *)
Theorem flags_kept_without_set_fuzzy {U : Unicode} translated self po ts :
  set_fuzzy self = false ->
  flags <$> (update_translations translated self po ts).1 = flags <$> po.
Proof.
  intros Hf. revert ts. induction po as [|e po IH]; intros ts; [done|].
  simpl.
  destruct (need_translate translated self e); simpl.
  - destruct (update_entry self e ts) as [e' r] eqn:E.
    apply update_entry_flags in E.
    assert (He' : flags e' = flags e).
    { destruct r; [done|]. by rewrite E, mark_fuzzy_flags, Hf. }
    destruct r as [x|ts1]; csimpl; [by rewrite He'|].
    specialize (IH ts1).
    destruct (update_translations translated self po ts1). csimpl in *.
    by rewrite He', IH.
  - specialize (IH ts).
    destruct (update_translations translated self po ts). csimpl in *.
    by rewrite IH.
Qed.

Lemma flags_kept_without_set_fuzzy_witness :
  flags <$> (update_translations (U := ascii_tables)
      has_msgstr (sample_command true false)
               sample_catalog sample_translations).1
  = flags <$> sample_catalog.
Proof.
  exact (flags_kept_without_set_fuzzy has_msgstr (sample_command true false)
           sample_catalog sample_translations eq_refl).
Defined.

(** X4: when the update of an entry raises, the pass ends there with that
    exception: the entries before it stay updated, the entries after it
    are as they were. *)
Theorem exception_stops_the_pass {U : Unicode}
    translated self po ts i e d1 ts1 e' x :
  po !! i = Some e ->
  need_translate translated self e = true ->
  update_translations translated self (take i po) ts = (d1, inr ts1) ->
  update_entry self e ts1 = (e', inl x) ->
  update_translations translated self po ts
  = (d1 ++ e' :: drop (S i) po, inl x).
Proof.
  intros Hi Hn E1 He.
  rewrite <- (take_drop_middle _ _ _ Hi) at 1.
  rewrite update_translations_app, E1. simpl. by rewrite Hn, He.
Qed.

Lemma exception_stops_the_pass_witness :
  update_translations (U := ascii_tables) has_msgstr (sample_command false true)
    [sample_entry "Hello" "" "" [] false;
     sample_entry "Call __init__ first" "" "" [] false;
     sample_entry "Bye" "" "" [] false]
    [lit "Bonjour"; lit "Appelez __init__ d'abord"; lit "Salut"]
  = ([sample_entry "Hello" "" "Bonjour" [fuzzy] false]
     ++ sample_entry "Call __init__ first" "" "" [] false
     :: drop 2 [sample_entry "Hello" "" "" [] false;
                sample_entry "Call __init__ first" "" "" [] false;
                sample_entry "Bye" "" "" [] false],
     inl IndexError).
Proof.
  exact (exception_stops_the_pass has_msgstr (sample_command false true)
           [sample_entry "Hello" "" "" [] false;
            sample_entry "Call __init__ first" "" "" [] false;
            sample_entry "Bye" "" "" [] false]
           [lit "Bonjour"; lit "Appelez __init__ d'abord"; lit "Salut"]
           1 (sample_entry "Call __init__ first" "" "" [] false)
           [sample_entry "Hello" "" "Bonjour" [fuzzy] false]
           [lit "Appelez __init__ d'abord"; lit "Salut"]
           (sample_entry "Call __init__ first" "" "" [] false) IndexError
           eq_refl eq_refl eq_refl eq_refl).
Defined.

(** X5: when the iterator holds one translation for a plural entry, the
    pass ends with [StopIteration] after plural form 0 was written: the
    entry keeps its other plural forms, [msgstr] and flags. *)
Theorem plural_entry_half_updated {U : Unicode}
    translated self po ts i e d1 t1 f1 :
  po !! i = Some e ->
  need_translate translated self e = true ->
  truthy (msgid_plural e) = true ->
  update_translations translated self (take i po) ts = (d1, inr [t1]) ->
  fix_translation (msgid e) t1 = inr f1 ->
  update_translations translated self po ts
  = (d1 ++ set_msgstr_plural (<[0%Z := f1]> (msgstr_plural e)) e
        :: drop (S i) po,
     inl StopIteration).
Proof.
  intros Hi Hn Hp E1 Hf.
  rewrite <- (take_drop_middle _ _ _ Hi) at 1.
  rewrite update_translations_app, E1. simpl. rewrite Hn. simpl.
  unfold update_entry. rewrite Hp. simpl. by rewrite Hf.
Qed.

Lemma plural_entry_half_updated_witness :
  update_translations (U := ascii_tables) has_msgstr (sample_command false true)
    sample_catalog [lit "Bonjour"; lit "__number__ article"]
  = ([sample_entry "Hello" "" "Bonjour" [fuzzy] false]
     ++ set_msgstr_plural
          (<[0%Z := lit "%d article"]>
             (msgstr_plural (sample_entry "%d item" "%d items" "" [] false)))
          (sample_entry "%d item" "%d items" "" [] false)
     :: drop 2 sample_catalog,
     inl StopIteration).
Proof.
  exact (plural_entry_half_updated has_msgstr (sample_command false true)
           sample_catalog [lit "Bonjour"; lit "__number__ article"] 1
           (sample_entry "%d item" "%d items" "" [] false)
           [sample_entry "Hello" "" "Bonjour" [fuzzy] false]
           (lit "__number__ article") (lit "%d article")
           eq_refl eq_refl eq_refl eq_refl eq_refl).
Defined.

(** X6: a normal end has taken exactly the extracted number of
    translations from the front of the list; [StopIteration] only comes
    from a list shorter than the extracted one. *)
Theorem outcome_against_extraction {U : Unicode} translated self po ts :
  let n := length (get_strings_to_translate translated self po) in
  match (update_translations translated self po ts).2 with
  | inr rest => n <= length ts /\ rest = drop n ts
  | inl StopIteration => length ts < n
  | inl IndexError => True
  end.
Proof.
  simpl.
  destruct (update_translations translated self po ts) as [done r] eqn:E.
  apply update_translations_outcome in E. simpl in *.
  destruct r as [[]|rest]; try done. by destruct E.
Qed.

(** X7: when no entry is selected, nothing is extracted and
    [update_translations] returns the catalog and the iterator as they
    were. *)
Theorem nothing_selected {U : Unicode} translated self po ts :
  Forall (λ e, need_translate translated self e = false) po ->
  get_strings_to_translate translated self po = []
  /\ update_translations translated self po ts = (po, inr ts).
Proof.
  induction 1 as [|e po He Hpo [IH1 IH2]]; [done|]. simpl.
  by rewrite He, IH1, IH2.
Qed.

Lemma nothing_selected_witness :
  get_strings_to_translate (U := ascii_tables)
      has_msgstr (sample_command true false)
    [sample_entry "Bye" "" "Au revoir" [] true] = []
  /\ update_translations (U := ascii_tables)
      has_msgstr (sample_command true false)
       [sample_entry "Bye" "" "Au revoir" [] true] [lit "Salut"]
     = ([sample_entry "Bye" "" "Au revoir" [] true], inr [lit "Salut"]).
Proof.
  apply (nothing_selected has_msgstr (sample_command true false)
           [sample_entry "Bye" "" "Au revoir" [] true] [lit "Salut"]).
  repeat constructor.
Defined.

(** X8: both passes go through a concatenated catalog part by part: the
    extracted list is the concatenation, and the second part is updated
    from what the first left in the iterator, unless the first raised. *)
Theorem passes_over_concatenation {U : Unicode} translated self po1 po2 ts :
  get_strings_to_translate translated self (po1 ++ po2)
  = get_strings_to_translate translated self po1
    ++ get_strings_to_translate translated self po2
  /\ update_translations translated self (po1 ++ po2) ts
     = match update_translations translated self po1 ts with
       | (d1, inl x) => (d1 ++ po2, inl x)
       | (d1, inr ts1) =>
           let '(d2, r) := update_translations translated self po2 ts1 in
           (d1 ++ d2, r)
       end.
Proof.
  split; [apply get_strings_app|apply update_translations_app].
Qed.

(** X20: the extracted list holds exactly the humanized [msgid] of the
    selected entries and the humanized [msgid_plural] of those that have
    one. *)
Theorem extracted_strings {U : Unicode} translated self po s :
  s ∈ get_strings_to_translate translated self po
  <-> exists e,
        e ∈ po
        /\ need_translate translated self e = true
        /\ (s = humanize_placeholders (msgid e)
            \/ (truthy (msgid_plural e) = true
                /\ s = humanize_placeholders (msgid_plural e))).
Proof.
  induction po as [|e po IH]; simpl.
  - split; [by intros ?%elem_of_nil|]. by intros (e & ?%elem_of_nil & _).
  - destruct (need_translate translated self e) eqn:Hn; simpl.
    + rewrite elem_of_cons, elem_of_app, IH. split.
      * intros [->|[Hs|(e' & He' & Hn' & Hs)]].
        -- exists e. split; [by left|]. by split; [|left].
        -- destruct (truthy (msgid_plural e)) eqn:Hp;
             [|by apply elem_of_nil in Hs].
           apply list_elem_of_singleton in Hs as ->.
           exists e. split; [by left|]. split; [done|]. by right.
        -- exists e'. split; [by right|done].
      * intros (e' & [->|He']%elem_of_cons & Hn' & Hs).
        -- destruct Hs as [->|[Hp ->]]; [by left|].
           right. left. rewrite Hp. by apply list_elem_of_singleton.
        -- right. right. by exists e'.
    + rewrite IH. split.
      * intros (e' & He' & Hn' & Hs). exists e'. split; [by right|done].
      * intros (e' & [->|He']%elem_of_cons & Hn' & Hs); [congruence|].
        by exists e'.
Qed.

Lemma extracted_strings_witness :
  lit "__number__ items"
    ∈ get_strings_to_translate (U := ascii_tables)
        has_msgstr (sample_command true false)
        sample_catalog.
Proof.
  apply (extracted_strings has_msgstr (sample_command true false)
           sample_catalog (lit "__number__ items")).
  exists (sample_entry "%d item" "%d items" "" [] false).
  split; [right; left|]. split; [reflexivity|].
  right. split; [reflexivity|]. vm_compute. reflexivity.
Defined.

(** ** The placeholder functions *)

(** X9: text without a percent sign is returned unchanged by
    [humanize_placeholders]. *)
Theorem humanize_without_percent {U : Unicode} s :
  Forall (λ c, N.eqb c (ord "%") = false) s ->
  humanize_placeholders s = s.
Proof.
  induction 1 as [|c s Hc Hs IH]; [done|].
  by rewrite humanize_copy, IH by by apply placeholder_at_percent.
Qed.

Lemma humanize_without_percent_witness :
  humanize_placeholders (U := ascii_tables)
      (lit "Save changes") = lit "Save changes".
Proof.
  apply (humanize_without_percent (lit "Save changes")).
  repeat constructor.
Defined.

(** X10: [humanize_placeholders] neither adds nor removes a leading or
    trailing newline. *)
Theorem humanize_keeps_newlines {U : Unicode} s :
  startswith_nl (humanize_placeholders s) = startswith_nl s
  /\ endswith_nl (humanize_placeholders s) = endswith_nl s.
Proof.
  pose proof (humanized_humanize s) as H. split.
  - by apply Humanized_startswith_nl.
  - by apply Humanized_endswith_nl.
Qed.

Lemma token_at_without_underscore {U : Unicode} t :
  Forall (λ c, N.eqb c (ord "_") = false) t -> token_at t = None.
Proof.
  destruct 1 as [|c t Hc Ht]; [done|]. by apply token_at_not_underscore.
Qed.

Lemma Forall_span_2 {P : N -> Prop} p s :
  Forall P s -> Forall P (span p s).2.
Proof.
  intros H. rewrite <- (span_app p s) in H. by apply Forall_app in H as [_ ?].
Qed.

Lemma scan_without_underscore {U : Unicode} t :
  Forall (λ c, N.eqb c (ord "_") = false) t ->
  scan 3 token_re t 0 = Copy <$> t.
Proof.
  assert (Hnone : forall u, Forall (λ c, N.eqb c (ord "_") = false) u ->
                            match_at 3 token_re u = None).
  { intros u Hu. rewrite match_at_token.
    by rewrite token_at_without_underscore by by apply Forall_span_2. }
  induction 1 as [|c t Hc Ht IH].
  - cbn [scan]. by rewrite Hnone.
  - rewrite scan_miss by (apply Hnone; by constructor). by rewrite IH.
Qed.

Lemma sub_pop_copies t ps : sub_pop (Copy <$> t) ps = inr t.
Proof. induction t as [|c t IH]; [done|]. csimpl. by rewrite IH. Qed.

Lemma fix_newlines_without_underscore msgid t :
  Forall (λ c, N.eqb c (ord "_") = false) t ->
  Forall (λ c, N.eqb c (ord "_") = false) (fix_newlines msgid t).
Proof.
  intros Ht. unfold fix_newlines.
  repeat match goal with
         | |- context [if ?b then _ else _] => destruct b
         end;
    rewrite ?Forall_app, ?Forall_cons; repeat split; done.
Qed.

(** X11: a translation without underscore holds no token: the restoration
    returns it as it is and never raises, so [fix_translation] only
    repairs the newlines and puts back no placeholder of [msgid]. *)
Theorem translation_without_underscore {U : Unicode} msgid translation :
  Forall (λ c, N.eqb c (ord "_") = false) translation ->
  restore_placeholders msgid translation = inr translation
  /\ fix_translation msgid translation
     = inr (fix_newlines msgid translation).
Proof.
  intros Ht. unfold fix_translation, restore_placeholders. split.
  - by rewrite scan_without_underscore, sub_pop_copies.
  - rewrite scan_without_underscore, sub_pop_copies;
      [done|by apply fix_newlines_without_underscore].
Qed.

Lemma translation_without_underscore_witness :
  restore_placeholders (U := ascii_tables)
      (lit "Hello %s") (lit "Bonjour") = inr (lit "Bonjour")
  /\ fix_translation (U := ascii_tables) (lit "Hello %s") (lit "Bonjour")
     = inr (fix_newlines (lit "Hello %s") (lit "Bonjour")).
Proof.
  apply (translation_without_underscore (lit "Hello %s") (lit "Bonjour")).
  repeat constructor.
Defined.

Lemma startswith_nl_snoc s c :
  s <> [] -> startswith_nl (s ++ [c]) = startswith_nl s.
Proof. by destruct s. Qed.

Lemma endswith_nl_snoc s : endswith_nl (s ++ [nl]) = true.
Proof. unfold endswith_nl. by rewrite last_snoc. Qed.

(** X12: after the newline repairs neither test of [fix_translation]
    holds any more, so repairing twice is repairing once. *)
Theorem fix_newlines_settles msgid translation :
  let fixed := fix_newlines msgid translation in
  startswith_nl msgid && negb (startswith_nl fixed) = false
  /\ endswith_nl msgid && negb (endswith_nl fixed) = false
  /\ fix_newlines msgid fixed = fixed.
Proof.
  simpl.
  assert (H1 : startswith_nl msgid
               && negb (startswith_nl (fix_newlines msgid translation))
               = false).
  { unfold fix_newlines.
    destruct (startswith_nl msgid) eqn:Em; [|done]. simpl.
    destruct (startswith_nl translation) eqn:Et; simpl.
    - destruct (_ && _); [|by rewrite Et].
      rewrite startswith_nl_snoc, Et; [done|]. by destruct translation.
    - by destruct (_ && _). }
  assert (H2 : endswith_nl msgid
               && negb (endswith_nl (fix_newlines msgid translation))
               = false).
  { unfold fix_newlines.
    set (r0 := if startswith_nl msgid && negb (startswith_nl translation)
               then nl :: translation else translation).
    destruct (endswith_nl msgid) eqn:Em; [|done]. simpl.
    destruct (endswith_nl r0) eqn:Eu; simpl;
      [by rewrite Eu|by rewrite endswith_nl_snoc]. }
  split_and!; [done|done|].
  unfold fix_newlines at 1. by rewrite H1, H2.
Qed.

(** ** [translate_file] *)

Lemma fix_translation_humanized {U : Unicode} s :
  Tidy s -> fix_translation s (humanize_placeholders s) = inr s.
Proof.
  intros Ht. unfold fix_translation, restore_placeholders.
  rewrite fix_newlines_humanized. by apply restore_humanized.
Qed.

Lemma update_translations_echo {U : Unicode} translated self po rest :
  Forall (λ e, need_translate translated self e = true ->
               Tidy (msgid e)
               /\ (truthy (msgid_plural e) = true ->
                   Tidy (msgid_plural e))) po ->
  update_translations translated self po
    (get_strings_to_translate translated self po ++ rest)
  = ((λ e, if need_translate translated self e then echoed self e else e)
       <$> po, inr rest).
Proof.
  induction 1 as [|e po He Hpo IH]; [done|]. simpl.
  destruct (need_translate translated self e) eqn:Hn; simpl;
    [|by rewrite IH].
  destruct (He eq_refl) as [Ht Htp].
  unfold update_entry, echoed.
  destruct (truthy (msgid_plural e)) eqn:Hp; simpl.
  - rewrite (fix_translation_humanized _ Ht). simpl.
    rewrite (fix_translation_humanized _ (Htp eq_refl)). simpl.
    by rewrite IH.
  - rewrite (fix_translation_humanized _ Ht). simpl. by rewrite IH.
Qed.

(** X13: with a backend that returns the strings it is given, and source
    strings that are tidy (the condition of the round trip),
    [translate_file] ends normally and every selected entry gets its own
    source strings as translations. *)
Theorem translate_file_echo {U : Unicode}
    translate_strings translated self po lang :
  (forall strings target source skip,
     translate_strings strings target source skip = strings) ->
  Forall (λ e, need_translate translated self e = true ->
               Tidy (msgid e)
               /\ (truthy (msgid_plural e) = true ->
                   Tidy (msgid_plural e))) po ->
  translate_file translate_strings translated self po lang
  = inr ((λ e, if need_translate translated self e
               then echoed self e else e) <$> po).
Proof.
  intros Hecho Hpo. unfold translate_file. rewrite Hecho.
  rewrite <- (app_nil_r (get_strings_to_translate translated self po)).
  by rewrite update_translations_echo.
Qed.

Lemma translate_file_echo_witness :
  translate_file (U := ascii_tables) (λ strings _ _ _, strings) has_msgstr
    (sample_command false false) sample_catalog (lit "fr")
  = inr ((λ e, if need_translate has_msgstr (sample_command false false) e
               then echoed (sample_command false false) e else e)
           <$> sample_catalog).
Proof.
  apply (translate_file_echo (λ strings _ _ _, strings) has_msgstr
           (sample_command false false) sample_catalog (lit "fr")).
  - intros. reflexivity.
  - repeat (constructor;
              [intros _; split; [|intros _]; vm_compute; tidy_text|]).
    constructor.
Defined.

(** X21: when the backend returns fewer strings than it was given,
    [translate_file] raises and saves nothing. *)
Theorem translate_file_short_answer {U : Unicode}
    translate_strings translated self po
    lang :
  length (translate_strings (get_strings_to_translate translated self po)
            lang (lit "en") false)
  < length (get_strings_to_translate translated self po) ->
  translate_file translate_strings translated self po lang
    = inl StopIteration
  \/ translate_file translate_strings translated self po lang
     = inl IndexError.
Proof.
  intros Hlen. unfold translate_file.
  destruct (update_translations _ _ _ _) as [done r] eqn:E.
  apply update_translations_outcome in E. cbv zeta in E.
  destruct r as [[]|rest]; [by left|by right|]. destruct E. lia.
Qed.

Lemma translate_file_short_answer_witness :
  translate_file (U := ascii_tables)
      (λ strings _ _ _, take 1 strings) has_msgstr
    (sample_command false false) sample_catalog (lit "fr")
    = inl StopIteration
  \/ translate_file (U := ascii_tables)
      (λ strings _ _ _, take 1 strings) has_msgstr
       (sample_command false false) sample_catalog (lit "fr")
     = inl IndexError.
Proof.
  apply (translate_file_short_answer (λ strings _ _ _, take 1 strings)
           has_msgstr (sample_command false false) sample_catalog (lit "fr")).
  vm_compute. lia.
Defined.

(** ** Paths *)

Lemma rsplit_sep_app q a :
  (q = [] \/ last q = Some (ord "/")) ->
  Forall (λ c, is_sep c = false) a ->
  rsplit_sep (q ++ a) = (q, a).
Proof.
  intros Hq Ha. unfold rsplit_sep. rewrite reverse_app.
  rewrite (span_intro _ (reverse a) (reverse q)).
  - by rewrite !reverse_involutive.
  - apply Forall_reverse. eapply Forall_impl; [exact Ha|].
    intros c Hc. simpl in Hc. by rewrite Hc.
  - destruct Hq as [->|Hq]; [done|].
    rewrite <- head_reverse in Hq.
    destruct (reverse q) as [|c r]; [done|]. by injection Hq as ->.
Qed.

Lemma path_basename_app q a :
  (q = [] \/ last q = Some (ord "/")) ->
  Forall (λ c, is_sep c = false) a ->
  path_basename (q ++ a) = a.
Proof. intros Hq Ha. unfold path_basename. by rewrite rsplit_sep_app. Qed.

Lemma path_dirname_app q a b :
  a <> [] ->
  Forall (λ c, is_sep c = false) a ->
  Forall (λ c, is_sep c = false) b ->
  path_dirname (q ++ a ++ ord "/" :: b) = q ++ a.
Proof.
  intros Hne Ha Hb. unfold path_dirname.
  replace (q ++ a ++ ord "/" :: b) with ((q ++ a ++ [ord "/"]) ++ b)
    by (by rewrite <- !app_assoc).
  rewrite rsplit_sep_app; [|right; by rewrite !app_assoc, last_snoc|done].
  cbn [fst].
  destruct a as [|c a _] using rev_ind; [done|].
  apply Forall_app in Ha as [_ Hc%Forall_inv]. cbv beta in Hc.
  assert (Hrev : reverse (q ++ (a ++ [c]) ++ [ord "/"])
                 = ord "/" :: c :: reverse (q ++ a)).
  { by rewrite !app_assoc, !reverse_snoc. }
  assert (Hall : forallb is_sep (q ++ (a ++ [c]) ++ [ord "/"]) = false).
  { rewrite !forallb_app. cbn [forallb]. rewrite Hc.
    by rewrite !andb_false_r. }
  rewrite Hall. unfold rstrip_sep. rewrite Hrev. cbn [span].
  rewrite Hc. change (is_sep (ord "/")) with true. cbn [snd].
  by rewrite reverse_cons, reverse_involutive, <- app_assoc.
Qed.

Lemma join_step_component base l :
  l <> [] ->
  Forall (λ c, is_sep c = false) l ->
  exists q, (q = [] \/ last q = Some (ord "/")) /\ join_step base l = q ++ l.
Proof.
  intros Hne Hl. unfold join_step.
  destruct l as [|c l]; [done|]. apply Forall_inv in Hl as Hc.
  cbv beta in Hc. rewrite Hc.
  destruct (last base) as [d|] eqn:Eb.
  - destruct (is_sep d) eqn:Ed.
    + exists base. split; [|done]. right.
      apply N.eqb_eq in Ed. by subst.
    + exists (base ++ [ord "/"]). split; [right; by rewrite last_snoc|].
      by rewrite <- app_assoc.
  - apply last_None in Eb as ->. exists []. split; [by left|done].
Qed.

Lemma join_step_after_component p l b :
  l <> [] ->
  Forall (λ c, is_sep c = false) l ->
  match b with c :: _ => is_sep c | [] => false end = false ->
  join_step (p ++ l) b = p ++ l ++ ord "/" :: b.
Proof.
  intros Hne Hl Hb. unfold join_step. rewrite Hb.
  destruct l as [|c l _] using rev_ind; [done|].
  apply Forall_app in Hl as [_ Hc%Forall_inv]. cbv beta in Hc.
  by rewrite app_assoc, last_snoc, Hc, <- !app_assoc.
Qed.

Lemma path_join_locale_dir base l :
  l <> [] ->
  Forall (λ c, is_sep c = false) l ->
  exists q, (q = [] \/ last q = Some (ord "/"))
            /\ path_join base [l; lit "LC_MESSAGES"]
               = q ++ l ++ ord "/" :: lit "LC_MESSAGES".
Proof.
  intros Hne Hl. unfold path_join. cbn [fold_left].
  destruct (join_step_component base l Hne Hl) as (q & Hq & ->).
  exists q. split; [done|]. by apply join_step_after_component.
Qed.

Lemma target_language_locale_dir base l :
  l <> [] ->
  Forall (λ c, is_sep c = false) l ->
  path_basename (path_dirname (path_join base [l; lit "LC_MESSAGES"])) = l.
Proof.
  intros Hne Hl.
  destruct (path_join_locale_dir base l Hne Hl) as (q & Hq & ->).
  rewrite path_dirname_app by (done || by repeat constructor).
  by apply path_basename_app.
Qed.

(** X14: for a file found in the directory [<base>/<l>/LC_MESSAGES],
    [handle] calls [translate_file] with [l] as the target language. *)
Theorem handle_target_language os self result k base l f :
  find_po_files os (locale self) (exclude self) = inr result ->
  result !! k = Some (path_join base [l; lit "LC_MESSAGES"], f) ->
  l <> [] ->
  Forall (λ c, is_sep c = false) l ->
  exists calls,
    handle os self = inr calls
    /\ calls !! k
       = Some (path_join (path_join base [l; lit "LC_MESSAGES"]) [f], l).
Proof.
  intros Hfind Hk Hne Hl. unfold handle. rewrite Hfind.
  eexists. split; [done|].
  rewrite list_lookup_fmap, Hk. cbn [fmap option_fmap option_map].
  by rewrite target_language_locale_dir.
Qed.

Lemma handle_target_language_witness :
  exists calls,
    handle sample_os (sample_command false false) = inr calls
    /\ calls !! 0
       = Some (path_join (path_join (lit "/p/locale")
                            [lit "fr"; lit "LC_MESSAGES"])
                 [lit "django.po"], lit "fr").
Proof.
  apply (handle_target_language sample_os (sample_command false false)
           [(lit "/p/locale/fr/LC_MESSAGES", lit "django.po");
            (lit "/p/locale/de/LC_MESSAGES", lit "django.po")]
           0 (lit "/p/locale") (lit "fr") (lit "django.po")).
  - vm_compute. reflexivity.
  - reflexivity.
  - discriminate.
  - repeat constructor.
Defined.

(** X15: [os.walk] also yields the directories below
    [<base>/<l>/LC_MESSAGES]; for a file found in a directory [sub]
    directly below it, [sub] being a name without [/], [handle] calls
    [translate_file] with [LC_MESSAGES] as the target language, not
    [l]. *)
Theorem target_language_below_locale_dir os self result k base l sub f :
  find_po_files os (locale self) (exclude self) = inr result ->
  result !! k
  = Some (path_join (path_join base [l; lit "LC_MESSAGES"]) [sub], f) ->
  l <> [] ->
  Forall (λ c, is_sep c = false) l ->
  Forall (λ c, is_sep c = false) sub ->
  exists calls,
    handle os self = inr calls
    /\ calls !! k
       = Some (path_join
                 (path_join (path_join base [l; lit "LC_MESSAGES"]) [sub])
                 [f],
               lit "LC_MESSAGES").
Proof.
  intros Hfind Hk Hne Hl Hsub. unfold handle. rewrite Hfind.
  eexists. split; [done|].
  rewrite list_lookup_fmap, Hk. cbn [fmap option_fmap option_map].
  do 2 f_equal.
  destruct (path_join_locale_dir base l Hne Hl) as (q & Hq & ->).
  unfold path_join at 1. cbn [fold_left].
  replace (q ++ l ++ ord "/" :: lit "LC_MESSAGES")
    with ((q ++ l ++ [ord "/"]) ++ lit "LC_MESSAGES")
    by (by rewrite <- !app_assoc).
  rewrite join_step_after_component;
    [|done|by repeat constructor|by destruct Hsub].
  rewrite path_dirname_app by (done || by repeat constructor).
  apply path_basename_app; [|by repeat constructor].
  right. by rewrite !app_assoc, last_snoc.
Qed.

Lemma target_language_below_locale_dir_witness :
  exists calls,
    handle nested_os (sample_command false false) = inr calls
    /\ calls !! 1
       = Some (path_join
                 (path_join
                    (path_join (lit "/p/locale") [lit "fr"; lit "LC_MESSAGES"])
                    [lit "extra"])
                 [lit "extra.po"],
               lit "LC_MESSAGES").
Proof.
  apply (target_language_below_locale_dir nested_os
           (sample_command false false)
           [(lit "/p/locale/fr/LC_MESSAGES", lit "django.po");
            (lit "/p/locale/fr/LC_MESSAGES/extra", lit "extra.po")]
           1 (lit "/p/locale") (lit "fr") (lit "extra") (lit "extra.po")).
  - vm_compute. reflexivity.
  - reflexivity.
  - discriminate.
  - repeat constructor.
  - repeat constructor.
Defined.

Example nested_catalog_language :
  handle nested_os (sample_command false false)
  = inr [(lit "/p/locale/fr/LC_MESSAGES/django.po", lit "fr");
         (lit "/p/locale/fr/LC_MESSAGES/extra/extra.po", lit "LC_MESSAGES")].
Proof. vm_compute. reflexivity. Qed.

(** ** [find_po_files] *)

Lemma endswith_true s suffix :
  endswith s suffix = true <-> exists stem, s = stem ++ suffix.
Proof.
  unfold endswith. rewrite bool_decide_eq_true. split.
  - intros H. exists (take (length s - length suffix) s).
    rewrite <- H at 2. by rewrite take_drop.
  - intros [stem ->]. by rewrite length_app, Nat.add_sub, drop_app_length.
Qed.

Lemma elem_of_po_files_under os ldir d f :
  (d, f) ∈ po_files_under os ldir
  <-> exists dirnames filenames,
        (d, dirnames, filenames) ∈ walk os ldir
        /\ f ∈ filenames /\ endswith f (lit ".po") = true.
Proof.
  unfold po_files_under. rewrite list_elem_of_bind. split.
  - intros ([[dirpath dirnames] filenames] & Hin & Hw).
    apply list_elem_of_bind in Hin as (filename & Hin & Hf).
    destruct (endswith filename (lit ".po")) eqn:E;
      [|by apply elem_of_nil in Hin].
    apply list_elem_of_singleton in Hin as [= -> ->].
    by exists dirnames, filenames.
  - intros (dirnames & filenames & Hw & Hf & E).
    exists (d, dirnames, filenames). split; [|done].
    apply list_elem_of_bind. exists f. split; [|done].
    rewrite E. by apply list_elem_of_singleton.
Qed.

Lemma elem_of_find_po_files os locale exclude result d f :
  find_po_files os locale exclude = inr result ->
  ((d, f) ∈ result
   <-> (exists basedir ldir,
          basedir ∈ existing_basedirs os
          /\ ldir ∈ search_dirs (selected_locales os locale exclude) basedir
          /\ (d, f) ∈ po_files_under os ldir)).
Proof.
  unfold find_po_files. intros H.
  assert (Hres : result
                 = basedir ← existing_basedirs os;
                   ldir ← search_dirs (selected_locales os locale exclude)
                            basedir;
                   po_files_under os ldir).
  { destruct (existing_basedirs os); [done|]. by injection H as <-. }
  rewrite Hres, list_elem_of_bind. split.
  - intros (basedir & (ldir & Hin & Hl)%list_elem_of_bind & Hb).
    by exists basedir, ldir.
  - intros (basedir & ldir & Hb & Hl & Hin). exists basedir. split; [|done].
    apply list_elem_of_bind. by exists ldir.
Qed.

Lemma elem_of_selected_locales os locale exclude l :
  l ∈ selected_locales os locale exclude ->
  (l ∉ exclude) /\ (locale <> [] -> l ∈ locale).
Proof.
  unfold selected_locales.
  rewrite elem_of_remove_dups, list_elem_of_difference.
  intros [Hin Hex]. split; [done|]. intros Hne. by destruct locale.
Qed.

(** X16: every file name [find_po_files] yields ends in [.po]. *)
Theorem find_po_files_only_po os locale exclude result d f :
  find_po_files os locale exclude = inr result ->
  (d, f) ∈ result ->
  exists stem, f = stem ++ lit ".po".
Proof.
  intros H (basedir & ldir & _ & _ & Hin)%(elem_of_find_po_files _ _ _ _ _ _ H).
  apply elem_of_po_files_under in Hin as (dirnames & filenames & _ & _ & E).
  by apply endswith_true.
Qed.

Lemma find_po_files_only_po_witness :
  exists stem, lit "django.po" = stem ++ lit ".po".
Proof.
  apply (find_po_files_only_po sample_os [lit "fr"] []
           [(lit "/p/locale/fr/LC_MESSAGES", lit "django.po")]
           (lit "/p/locale/fr/LC_MESSAGES") (lit "django.po")).
  - vm_compute. reflexivity.
  - by apply list_elem_of_singleton.
Defined.

(** X17: when at least one locale is left after the exclusions,
    [find_po_files] yields exactly the [.po] files under
    [<basedir>/<l>/LC_MESSAGES] for the existing base directories and the
    locales [l] left, none of which is excluded, and all of which are
    among the requested ones when a list was given. *)
Theorem find_po_files_selected_locales os locale exclude result d f :
  find_po_files os locale exclude = inr result ->
  selected_locales os locale exclude <> [] ->
  ((d, f) ∈ result
   <-> (exists basedir l dirnames filenames,
          basedir ∈ existing_basedirs os
          /\ l ∈ selected_locales os locale exclude
          /\ (l ∉ exclude)
          /\ (locale <> [] -> l ∈ locale)
          /\ (d, dirnames, filenames)
               ∈ walk os (path_join basedir [l; lit "LC_MESSAGES"])
          /\ f ∈ filenames
          /\ endswith f (lit ".po") = true)).
Proof.
  intros H Hne. rewrite (elem_of_find_po_files _ _ _ _ _ _ H).
  unfold search_dirs.
  destruct (selected_locales os locale exclude) as [|l0 ls] eqn:Es; [done|].
  rewrite <- Es. clear Hne. split.
  - intros (basedir & ldir & Hb & Hl & Hin).
    rewrite Es, <- Es in Hl.
    apply list_elem_of_fmap in Hl as (l & -> & Hl).
    apply elem_of_po_files_under in Hin as (dirnames & filenames & ? & ? & ?).
    destruct (elem_of_selected_locales _ _ _ _ Hl).
    by exists basedir, l, dirnames, filenames.
  - intros (basedir & l & dirnames & filenames & Hb & Hl & _ & _ & Hw & ? & ?).
    exists basedir, (path_join basedir [l; lit "LC_MESSAGES"]).
    split; [done|]. split.
    + rewrite Es, <- Es. apply list_elem_of_fmap. by exists l.
    + apply elem_of_po_files_under. by exists dirnames, filenames.
Qed.

Lemma find_po_files_selected_locales_witness :
  exists basedir l dirnames filenames,
    basedir ∈ existing_basedirs sample_os
    /\ l ∈ selected_locales sample_os [lit "fr"] []
    /\ (l ∉ [])
    /\ ([lit "fr"] <> [] -> l ∈ [lit "fr"])
    /\ (lit "/p/locale/fr/LC_MESSAGES", dirnames, filenames)
         ∈ walk sample_os (path_join basedir [l; lit "LC_MESSAGES"])
    /\ lit "django.po" ∈ filenames
    /\ endswith (lit "django.po") (lit ".po") = true.
Proof.
  apply (find_po_files_selected_locales sample_os [lit "fr"] []
           [(lit "/p/locale/fr/LC_MESSAGES", lit "django.po")]
           (lit "/p/locale/fr/LC_MESSAGES") (lit "django.po")).
  - vm_compute. reflexivity.
  - vm_compute. discriminate.
  - by apply list_elem_of_singleton.
Defined.

Lemma selected_locales_all_excluded os locale exclude :
  locale <> [] ->
  (forall l, l ∈ locale -> l ∈ exclude) ->
  selected_locales os locale exclude = [].
Proof.
  intros Hne Hall. apply elem_of_nil_inv. intros l Hl.
  destruct (elem_of_selected_locales _ _ _ _ Hl) as [Hex Hin].
  apply Hex, Hall, Hin, Hne.
Qed.

(** X18: when every requested locale is excluded, [find_po_files] yields
    the [.po] files of the whole tree under each base directory, those of
    the excluded locales included. *)
Theorem find_po_files_all_excluded os locale exclude result d f :
  find_po_files os locale exclude = inr result ->
  locale <> [] ->
  (forall l, l ∈ locale -> l ∈ exclude) ->
  ((d, f) ∈ result
   <-> (exists basedir,
          basedir ∈ existing_basedirs os
          /\ (d, f) ∈ po_files_under os basedir)).
Proof.
  intros H Hne Hall. rewrite (elem_of_find_po_files _ _ _ _ _ _ H).
  rewrite selected_locales_all_excluded by done. cbn [search_dirs]. split.
  - intros (basedir & ldir & Hb & ->%list_elem_of_singleton & Hin).
    by exists basedir.
  - intros (basedir & Hb & Hin). exists basedir, basedir.
    split; [done|]. split; [by apply list_elem_of_singleton|done].
Qed.

Lemma find_po_files_all_excluded_witness :
  exists basedir,
    basedir ∈ existing_basedirs sample_os
    /\ (lit "/p/locale/fr/LC_MESSAGES", lit "django.po")
         ∈ po_files_under sample_os basedir.
Proof.
  apply (find_po_files_all_excluded sample_os [lit "fr"] [lit "fr"]
           [(lit "/p/locale/fr/LC_MESSAGES", lit "django.po");
            (lit "/p/locale/de/LC_MESSAGES", lit "django.po")]
           (lit "/p/locale/fr/LC_MESSAGES") (lit "django.po")).
  - vm_compute. reflexivity.
  - discriminate.
  - intros l Hl. exact Hl.
  - left.
Defined.

(** X19: [find_po_files] raises exactly when none of the candidate base
    directories is a directory; the exception is a [NameError], the
    module not importing [CommandError]. *)
Theorem find_po_files_raises os locale exclude :
  find_po_files os locale exclude = inl NameError
  <-> Forall (λ d, isdir os d = false) (candidate_basedirs os).
Proof.
  unfold find_po_files, existing_basedirs.
  set (found := filter (λ d, isdir os d = true) (candidate_basedirs os)).
  assert (Hfound : found = []
                   <-> Forall (λ d, isdir os d = false)
                         (candidate_basedirs os)).
  { subst found. induction (candidate_basedirs os) as [|c l IH]; [done|].
    rewrite filter_cons, Forall_cons. destruct (isdir os c) eqn:E.
    - rewrite decide_True by done. split; [done|]. by intros [? _].
    - rewrite decide_False by congruence. rewrite IH.
      split; [done|by intros [_ ?]]. }
  rewrite <- Hfound. clear Hfound.
  destruct found as [|c l]; [done|].
  assert (Hin : abspath os c ∈ remove_dups (abspath os <$> c :: l)).
  { apply elem_of_remove_dups. by left. }
  destruct (remove_dups (abspath os <$> c :: l)) as [|b bs];
    [by apply elem_of_nil in Hin|done].
Qed.

Lemma find_po_files_raises_witness :
  find_po_files empty_os [] [] = inl NameError.
Proof.
  apply (find_po_files_raises empty_os [] []).
  repeat constructor.
Defined.
